(** * WcsUtils: sky <-> native coordinate transforms and the TAN-WCS fit

    A shallow embedding of
    [python/lsst/sims/GalSimInterface/wcsUtils/WcsUtils.py].

    Numbers.  The Python code computes in IEEE binary64 through numpy.  Here
    every finite float is idealised as a real number ([R]) and every
    arithmetic operation is exact, so a statement proved below is a
    statement about the algorithm in exact arithmetic; rounding is not
    modelled.  The two non-finite situations the code reacts to are kept
    explicit: a numpy division by zero gives [inf] or [nan] (a warning, never
    an exception), and [numpy.arccos] outside [-1, 1] gives [nan].

    Where rounding changes the branch taken.  Two tests of the code are
    discontinuous, and there binary64 and exact arithmetic part:
    - the quotient [v2[1]/numpy.cos(latOut)] is, in exact arithmetic, a
      cosine; binary64 can round it to [1.0000000000000002] in magnitude
      when the direction lies on the meridian of the pointing
      ([v2[0] = 0]), and then [numpy.arccos] gives [nan], while
      [numpy.cos] of a float is never exactly 0, so the quotient stays
      finite at a pole;
    - [numpy.linalg.solve] raises only when a pivot is exactly [0.0] after
      rounding.
    The statements below either do not depend on the arithmetic (shapes,
    exceptions, the branch structure, what happens to a [nan]), or are
    continuous in the data, so that binary64 follows them up to rounding;
    statements about the resolved longitude keep the direction off the
    meridian and off the poles by an explicit margin. *)

From Stdlib Require Import Reals Lra Lia List Bool ZArith.
Import ListNotations.

Open Scope R_scope.

(* ================================================================= *)
(** ** Exceptions and the result of a call *)

(** The exceptions that numpy raises in the modelled code. *)
Inductive exn : Type :=
| BroadcastError      (* ValueError: operands could not be broadcast together *)
| InhomogeneousShape  (* ValueError: numpy.array of rows of different shapes *)
| ArangeLength        (* numpy.arange with a zero step *)
| LinAlgError.        (* numpy.linalg.LinAlgError: Singular matrix *)

Inductive result (A : Type) : Type :=
| Ok (a : A)
| Raise (e : exn).

Arguments Ok {A} a.
Arguments Raise {A} e.

Definition bind {A B : Type} (m : result A) (k : A -> result B) : result B :=
  match m with
  | Ok a => k a
  | Raise e => Raise e
  end.

Notation "x <- m ;; k" := (bind m (fun x => k))
  (at level 61, m at next level, right associativity).

(* ================================================================= *)
(** ** float64 values that need not be finite *)

(** The quotient [v2[1]/numpy.cos(latOut)]: finite, [+inf], [-inf] or [nan]. *)
Inductive npfloat : Type :=
| Fin (r : R)
| PInf
| NInf
| NaN.

(** A float64 that is finite or [nan] (what [numpy.arccos] and
    [numpy.sin] return here): [None] is [nan]. *)
Definition nanfloat : Type := option R.

(** The literal [1.0e-9]. *)
Definition tol : R := 1 / 1000000000.

(** [a > b] on finite floats. *)
Definition gtb (a b : R) : bool := if Rlt_dec b a then true else false.

(** [numpy.sign] on a finite float: -1, 0 or 1. *)
Definition sign (r : R) : Z :=
  if Rlt_dec 0 r then 1%Z else if Rlt_dec r 0 then (-1)%Z else 0%Z.

(** numpy float division; a zero divisor gives [nan] (0/0) or an infinity. *)
Definition np_div (a b : R) : npfloat :=
  if Req_dec_T b 0 then
    if Rlt_dec 0 a then PInf else if Rlt_dec a 0 then NInf else NaN
  else Fin (a / b).

(** [numpy.arccos]: [nan] outside [-1, 1] (infinities and [nan] included). *)
Definition np_arccos (v : npfloat) : nanfloat :=
  match v with
  | Fin r => if Rle_dec (-1) r then if Rle_dec r 1 then Some (acos r) else None
             else None
  | _ => None
  end.

(** [-numpy.sin(_ra)]. *)
Definition neg_sin (a : nanfloat) : nanfloat :=
  match a with
  | Some r => Some (- sin r)
  | None => None
  end.

(** [numpy.abs(v) > t]; false for [nan], true for an infinity. *)
Definition abs_gt (v : npfloat) (t : R) : bool :=
  match v with
  | Fin r => gtb (Rabs r) t
  | PInf | NInf => true
  | NaN => false
  end.

(** [numpy.sign(v)]; [None] is [nan]. *)
Definition np_sign (v : npfloat) : option Z :=
  match v with
  | Fin r => Some (sign r)
  | PInf => Some 1%Z
  | NInf => Some (-1)%Z
  | NaN => None
  end.

(** [numpy.sign(v) != numpy.sign(w)] with [w] finite; [nan != s] is true. *)
Definition sign_ne (v : npfloat) (w : R) : bool :=
  match np_sign v with
  | Some s => negb (Z.eqb s (sign w))
  | None => true
  end.

(** A finite-or-nan float seen as a general float. *)
Definition of_nanfloat (a : nanfloat) : npfloat :=
  match a with
  | Some r => Fin r
  | None => NaN
  end.

(** [c - a] with [c] finite. *)
Definition rsub (c : R) (a : nanfloat) : nanfloat :=
  match a with
  | Some r => Some (c - r)
  | None => None
  end.

(** [numpy.arctan2(y, x)] on finite floats (signed zeros are not
    distinguished). *)
Definition arctan2 (y x : R) : R :=
  if Rlt_dec 0 x then atan (y / x)
  else if Rlt_dec x 0 then
    if Rle_dec 0 y then atan (y / x) + PI else atan (y / x) - PI
  else if Rlt_dec 0 y then PI / 2
  else if Rlt_dec y 0 then - (PI / 2)
  else 0.

(* ================================================================= *)
(** ** numpy values: a scalar or a one-dimensional array *)

Inductive ndarray (A : Type) : Type :=
| Scalar (a : A)
| Array1 (l : list A).

Arguments Scalar {A} a.
Arguments Array1 {A} l.

(** A unary ufunc. *)
Definition ufunc1 {A B : Type} (f : A -> B) (a : ndarray A) : ndarray B :=
  match a with
  | Scalar x => Scalar (f x)
  | Array1 l => Array1 (map f l)
  end.

Fixpoint zipWith {A B C : Type} (f : A -> B -> C) (l1 : list A) (l2 : list B)
  : list C :=
  match l1, l2 with
  | a :: l1', b :: l2' => f a b :: zipWith f l1' l2'
  | _, _ => []
  end.

(** A binary ufunc, with numpy's broadcasting rule for shapes [()] and
    [(n,)]: equal lengths combine element by element, a length-1 array is
    stretched, anything else raises. *)
Definition ufunc2 {A B C : Type} (f : A -> B -> C)
  (a : ndarray A) (b : ndarray B) : result (ndarray C) :=
  match a, b with
  | Scalar x, Scalar y => Ok (Scalar (f x y))
  | Scalar x, Array1 l => Ok (Array1 (map (f x) l))
  | Array1 l, Scalar y => Ok (Array1 (map (fun x => f x y) l))
  | Array1 l1, Array1 l2 =>
      if Nat.eqb (length l1) (length l2) then Ok (Array1 (zipWith f l1 l2))
      else match l1, l2 with
           | [x], _ => Ok (Array1 (map (f x) l2))
           | _, [y] => Ok (Array1 (map (fun x => f x y) l1))
           | _, _ => Raise BroadcastError
           end
  end.

(** A point of R^3, and a 3x3 matrix as its three rows. *)
Definition vec3 : Type := (R * R * R)%type.
Definition mat3 : Type := (vec3 * vec3 * vec3)%type.

Definition v_0 (v : vec3) : R := fst (fst v).
Definition v_1 (v : vec3) : R := snd (fst v).
Definition v_2 (v : vec3) : R := snd v.

Fixpoint zip3 (xs ys zs : list R) : list vec3 :=
  match xs, ys, zs with
  | x :: xs', y :: ys', z :: zs' => (x, y, z) :: zip3 xs' ys' zs'
  | _, _, _ => []
  end.

(** [numpy.array([x, y, z])]: shape [(3,)] from three scalars, shape
    [(3, n)] from three arrays of length [n].  The [(3, n)] array is kept
    as its [n] columns.  Rows of different shapes are refused, as current
    numpy does (a [ValueError]). *)
Definition np_array3 (x y z : ndarray R) : result (ndarray vec3) :=
  match x, y, z with
  | Scalar a, Scalar b, Scalar c => Ok (Scalar (a, b, c))
  | Array1 xs, Array1 ys, Array1 zs =>
      if Nat.eqb (length xs) (length ys) && Nat.eqb (length ys) (length zs)
      then Ok (Array1 (zip3 xs ys zs))
      else Raise InhomogeneousShape
  | _, _, _ => Raise InhomogeneousShape
  end.

Definition row_dot (r v : vec3) : R :=
  v_0 r * v_0 v + v_1 r * v_1 v + v_2 r * v_2 v.

Definition mat_vec (m : mat3) (v : vec3) : vec3 :=
  let '(r0, r1, r2) := m in (row_dot r0 v, row_dot r1 v, row_dot r2 v).

(** [numpy.dot(m, a)] for a 3x3 [m] and [a] of shape [(3,)] or [(3, n)]. *)
Definition np_dot (m : mat3) (a : ndarray vec3) : ndarray vec3 :=
  ufunc1 (mat_vec m) a.

(** [numpy.radians] and [numpy.degrees]. *)
Definition radians (a : R) : R := a * (PI / 180).
Definition degrees (a : R) : R := a * (180 / PI).

(* ================================================================= *)
(** ** The rotation and the resolution of the angles *)

(** The two Euler rotation matrices written out in both transforms. *)
Definition rot_x (ca sa : R) : mat3 :=
  ((1, 0, 0), (0, ca, sa), (0, -1 * sa, ca)).

Definition rot_z (cb sb : R) : mat3 :=
  ((cb, -1 * sb, 0), (sb, cb, 0), (0, 0, 1)).

(** Lines 69-74 of [_nativeLonLatFromRaDec], repeated verbatim as lines
    181-186 of [_raDecFromNativeLonLat], for one rotated vector [v2].
    In exact arithmetic [_y_of] is [nan] or infinite only when
    [cos(lat)] is exactly 0, and is otherwise within [-1, 1] for a unit
    [v2]; in binary64 the cosine is never exactly 0 and the quotient can
    exceed 1 in magnitude by one unit in the last place. *)
Definition cc_of (v2 : vec3) : R := sqrt (v_0 v2 * v_0 v2 + v_1 v2 * v_1 v2).
Definition lat_of (v2 : vec3) : R := arctan2 (v_2 v2) (cc_of v2).
Definition _y_of (v2 : vec3) : npfloat := np_div (v_1 v2) (cos (lat_of v2)).
Definition _ra_of (v2 : vec3) : nanfloat := np_arccos (_y_of v2).
Definition _x_of (v2 : vec3) : nanfloat := neg_sin (_ra_of v2).

(** The condition under which the source takes [2*pi - _ra]:
    [(abs(_x) > 1.0e-9 and sign(_x) != sign(v2[0]))
      or (abs(_y) > 1.0e-9 and sign(_y) != sign(v2[1]))]. *)
Definition flip (xx : nanfloat) (yy : npfloat) (v2_0 v2_1 : R) : bool :=
  (abs_gt (of_nanfloat xx) tol && sign_ne (of_nanfloat xx) v2_0)
  || (abs_gt yy tol && sign_ne yy v2_1).

(** The same condition with its second disjunct deleted. *)
Definition flip_x_only (xx : nanfloat) (yy : npfloat) (v2_0 v2_1 : R) : bool :=
  abs_gt (of_nanfloat xx) tol && sign_ne (of_nanfloat xx) v2_0.

Fixpoint zip5 {A B C D E : Type} (la : list A) (lb : list B) (lc : list C)
  (ld : list D) (le : list E) : list (A * B * C * D * E) :=
  match la, lb, lc, ld, le with
  | a :: la', b :: lb', c :: lc', d :: ld', e :: le' =>
      (a, b, c, d, e) :: zip5 la' lb' lc' ld' le'
  | _, _, _, _, _ => []
  end.

(** [0.0 if numpy.isnan(ll) else ll]. *)
Definition nan_to_zero (ll : nanfloat) : R :=
  match ll with
  | Some l => l
  | None => 0
  end.

Section FlipRule.

(** The condition of the quadrant flip; the source uses [flip]. *)
Variable cond : nanfloat -> npfloat -> R -> R -> bool.

(** The branch [type(_ra) is numpy.float64]: [0.0] when
    [numpy.isnan(_ra)], else [2*pi - _ra] or [_ra]. *)
Definition lon_scalar (v2 : vec3) : R :=
  match _ra_of v2 with
  | None => 0
  | Some _ra =>
      if cond (_x_of v2) (_y_of v2) (v_0 v2) (v_1 v2) then 2 * PI - _ra
      else _ra
  end.

(** The array branch: the comprehension over
    [zip(_ra, _x, _y, v2[0], v2[1])], then the replacement of [nan]. *)
Definition lon_array (v2 : list vec3) : list R :=
  let _ra := map _ra_of v2 in
  let _x := map _x_of v2 in
  let _y := map _y_of v2 in
  let _lonOut :=
    map (fun '(rr, xx, yy, v2_0, v2_1) =>
           if cond xx yy v2_0 v2_1 then rsub (2 * PI) rr else rr)
        (zip5 _ra _x _y (map v_0 v2) (map v_1 v2)) in
  map nan_to_zero _lonOut.

Definition lon_lat_of (v2 : ndarray vec3) : ndarray R * ndarray R :=
  match v2 with
  | Scalar v => (Scalar (lon_scalar v), Scalar (lat_of v))
  | Array1 vs => (Array1 (lon_array vs), Array1 (map lat_of vs))
  end.

Definition nativeLonLatFromRaDec_with (ra dec : ndarray R)
  (raPointing decPointing : R) : result (ndarray R * ndarray R) :=
  x <- ufunc2 Rmult (ufunc1 (Rmult (-1)) (ufunc1 cos dec)) (ufunc1 sin ra) ;;
  y <- ufunc2 Rmult (ufunc1 cos dec) (ufunc1 cos ra) ;;
  let z := ufunc1 sin dec in
  let alpha := decPointing - 0.5 * PI in
  let beta := -1 * raPointing in
  let ca := cos alpha in
  let sa := sin alpha in
  let cb := cos beta in
  let sb := sin beta in
  xyz <- np_array3 x y z ;;
  let v2 := np_dot (rot_x ca sa) (np_dot (rot_z cb sb) xyz) in
  Ok (lon_lat_of v2).

Definition raDecFromNativeLonLat_with (lon lat : ndarray R)
  (raPointing decPointing : R) : result (ndarray R * ndarray R) :=
  x <- ufunc2 Rmult (ufunc1 (Rmult (-1)) (ufunc1 cos lat)) (ufunc1 sin lon) ;;
  y <- ufunc2 Rmult (ufunc1 cos lat) (ufunc1 cos lon) ;;
  let z := ufunc1 sin lat in
  let alpha := 0.5 * PI - decPointing in
  let beta := raPointing in
  let ca := cos alpha in
  let sa := sin alpha in
  let cb := cos beta in
  let sb := sin beta in
  xyz <- np_array3 x y z ;;
  let v2 := np_dot (rot_z cb sb) (np_dot (rot_x ca sa) xyz) in
  Ok (lon_lat_of v2).

End FlipRule.

(** [_nativeLonLatFromRaDec(ra, dec, raPointing, decPointing)], radians.
    [ra] and [dec] are a scalar or an array; the pointing is a scalar. *)
Definition _nativeLonLatFromRaDec := nativeLonLatFromRaDec_with flip.

(** [_raDecFromNativeLonLat(lon, lat, raPointing, decPointing)], radians. *)
Definition _raDecFromNativeLonLat := raDecFromNativeLonLat_with flip.

(** The two transforms with the y-clause of the flip condition deleted. *)
Definition _nativeLonLatFromRaDec_x_only := nativeLonLatFromRaDec_with flip_x_only.
Definition _raDecFromNativeLonLat_x_only := raDecFromNativeLonLat_with flip_x_only.

(** [nativeLonLatFromRaDec]: the same in degrees. *)
Definition nativeLonLatFromRaDec (ra dec : ndarray R)
  (raPointing decPointing : R) : result (ndarray R * ndarray R) :=
  r <- _nativeLonLatFromRaDec (ufunc1 radians ra) (ufunc1 radians dec)
         (radians raPointing) (radians decPointing) ;;
  Ok (ufunc1 degrees (fst r), ufunc1 degrees (snd r)).

(** [raDecFromNativeLonLat]: the same in degrees. *)
Definition raDecFromNativeLonLat (lon lat : ndarray R)
  (raPointing decPointing : R) : result (ndarray R * ndarray R) :=
  r <- _raDecFromNativeLonLat (ufunc1 radians lon) (ufunc1 radians lat)
         (radians raPointing) (radians decPointing) ;;
  Ok (ufunc1 degrees (fst r), ufunc1 degrees (snd r)).

(* ================================================================= *)
(** ** The transforms on a pointing of any shape *)

(** One entry of the nested list given to [numpy.array] for a rotation
    matrix.  The rows hold the float literals [0.0] and [1.0] beside [ca],
    [sa], [cb] and [sb]: an entry that is an array makes the nested list
    ragged, and current numpy refuses it (a [ValueError]), as it does for
    [np_array3]. *)
Definition matrix_entry (a : ndarray R) : result R :=
  match a with
  | Scalar r => Ok r
  | Array1 _ => Raise InhomogeneousShape
  end.

(** [numpy.array([[1.0, 0.0, 0.0], [0.0, ca, sa], [0.0, -1.0*sa, ca]])]. *)
Definition np_rot_x (ca sa : ndarray R) : result mat3 :=
  c <- matrix_entry ca ;;
  s <- matrix_entry sa ;;
  Ok (rot_x c s).

(** [numpy.array([[cb, -1.0*sb, 0.0], [sb, cb, 0.0], [0.0, 0.0, 1.0]])]. *)
Definition np_rot_z (cb sb : ndarray R) : result mat3 :=
  c <- matrix_entry cb ;;
  s <- matrix_entry sb ;;
  Ok (rot_z c s).

(** [_nativeLonLatFromRaDec] with [raPointing] and [decPointing] a scalar
    or an array, in the order in which Python evaluates it: [x], [y], [z],
    the sines and cosines of the pointing, then the arguments of the outer
    [numpy.dot] from left to right, that is the matrix about x, the matrix
    about z and [numpy.array([x, y, z])]. *)
Definition nativeLonLatFromRaDec_anyPointing
  (ra dec raPointing decPointing : ndarray R)
  : result (ndarray R * ndarray R) :=
  x <- ufunc2 Rmult (ufunc1 (Rmult (-1)) (ufunc1 cos dec)) (ufunc1 sin ra) ;;
  y <- ufunc2 Rmult (ufunc1 cos dec) (ufunc1 cos ra) ;;
  let z := ufunc1 sin dec in
  let alpha := ufunc1 (fun d => d - 0.5 * PI) decPointing in
  let beta := ufunc1 (Rmult (-1)) raPointing in
  let ca := ufunc1 cos alpha in
  let sa := ufunc1 sin alpha in
  let cb := ufunc1 cos beta in
  let sb := ufunc1 sin beta in
  mx <- np_rot_x ca sa ;;
  mz <- np_rot_z cb sb ;;
  xyz <- np_array3 x y z ;;
  let v2 := np_dot mx (np_dot mz xyz) in
  Ok (lon_lat_of flip v2).

(** [_raDecFromNativeLonLat] likewise; here the outer [numpy.dot] takes the
    matrix about z first. *)
Definition raDecFromNativeLonLat_anyPointing
  (lon lat raPointing decPointing : ndarray R)
  : result (ndarray R * ndarray R) :=
  x <- ufunc2 Rmult (ufunc1 (Rmult (-1)) (ufunc1 cos lat)) (ufunc1 sin lon) ;;
  y <- ufunc2 Rmult (ufunc1 cos lat) (ufunc1 cos lon) ;;
  let z := ufunc1 sin lat in
  let alpha := ufunc1 (fun d => 0.5 * PI - d) decPointing in
  let beta := raPointing in
  let ca := ufunc1 cos alpha in
  let sa := ufunc1 sin alpha in
  let cb := ufunc1 cos beta in
  let sb := ufunc1 sin beta in
  mz <- np_rot_z cb sb ;;
  mx <- np_rot_x ca sa ;;
  xyz <- np_array3 x y z ;;
  let v2 := np_dot mz (np_dot mx xyz) in
  Ok (lon_lat_of flip v2).

(** Whether a numpy value is an array rather than a scalar. *)
Definition is_array {A : Type} (a : ndarray A) : bool :=
  match a with
  | Scalar _ => false
  | Array1 _ => true
  end.

(* ================================================================= *)
(** ** tanWcsFromDetector: the sampling grid *)

(** [numpy.arange(start, stop, step)]: [ceil((stop - start)/step)] values
    [start + i*step]; a zero step is refused. *)
Definition np_arange (start stop step : R) : result (list R) :=
  if Req_dec_T step 0 then Raise ArangeLength
  else Ok (map (fun i => start + INR i * step)
               (seq 0 (Z.to_nat (Zceil ((stop - start) / step))))).

(** Lines 294-308: the pixels at which the detector is sampled, in the
    order of the two nested loops, as pairs [(xPixList[i], yPixList[i])].
    [dy] is computed and the inner loop runs on [dx], as in the source. *)
Definition sample_grid (xTanPixMin xTanPixMax yTanPixMin yTanPixMax : R)
  : result (list (R * R)) :=
  let dx := 0.5 * (xTanPixMax - xTanPixMin) in
  let dy := 0.5 * (yTanPixMax - yTanPixMin) in
  xs <- np_arange xTanPixMin (xTanPixMax + 0.5 * dx) dx ;;
  ys <- np_arange yTanPixMin (yTanPixMax + 0.5 * dx) dx ;;
  Ok (flat_map (fun xx => map (fun yy => (xx, yy)) ys) xs).

(** The grid the comment above the loop describes: [dx] along x and [dy]
    along y. *)
Definition sample_grid_dx_dy (xTanPixMin xTanPixMax yTanPixMin yTanPixMax : R)
  : result (list (R * R)) :=
  let dx := 0.5 * (xTanPixMax - xTanPixMin) in
  let dy := 0.5 * (yTanPixMax - yTanPixMin) in
  xs <- np_arange xTanPixMin (xTanPixMax + 0.5 * dx) dx ;;
  ys <- np_arange yTanPixMin (yTanPixMax + 0.5 * dy) dy ;;
  Ok (flat_map (fun xx => map (fun yy => (xx, yy)) ys) xs).

(* ================================================================= *)
(** ** tanWcsFromDetector: the linear solve *)

(** [a.sum()]. *)
Definition np_sum (a : ndarray R) : R :=
  match a with
  | Scalar x => x
  | Array1 l => fold_right Rplus 0 l
  end.

(** [numpy.linalg.solve] is LAPACK's LU solve with row pivoting; it raises
    [LinAlgError] when a pivot column is entirely zero.  In exact
    arithmetic the choice among non-zero pivots does not change the
    answer, so the model takes the first row with a non-zero leading
    entry.  Rows are rows of the augmented matrix [[A | b]].  The test is
    against the exact real 0: a matrix that is singular in exact
    arithmetic without a column of exact zeros (collinear samples, say)
    raises here, while LAPACK sees the rounded pivot and raises only if
    that is exactly [0.0]. *)
Fixpoint find_pivot (rows : list (list R))
  : option (list R * list (list R)) :=
  match rows with
  | [] => None
  | r :: rest =>
      match r with
      | [] => None
      | a :: _ =>
          if Req_dec_T a 0 then
            match find_pivot rest with
            | Some (p, others) => Some (p, r :: others)
            | None => None
            end
          else Some (r, rest)
      end
  end.

(** [r - (r[0]/p[0]) * p] without its leading entry (which is zero). *)
Definition eliminate (p r : list R) : list R :=
  match p, r with
  | p0 :: pt, r0 :: rt => zipWith (fun a b => a - r0 / p0 * b) rt pt
  | _, _ => []
  end.

(** [b - sum_j a_j * x_j] for a row [[a_1; ...; a_k; b]]. *)
Fixpoint row_residual (row xs : list R) : R :=
  match row, xs with
  | a :: row', x :: xs' => row_residual row' xs' - a * x
  | b :: _, [] => b
  | [], _ => 0
  end.

Fixpoint gauss (n : nat) (rows : list (list R)) : option (list R) :=
  match n with
  | O => Some []
  | S n' =>
      match find_pivot rows with
      | None => None
      | Some (p, others) =>
          match gauss n' (map (eliminate p) others) with
          | None => None
          | Some xs => Some (row_residual (tl p) xs / hd 0 p :: xs)
          end
      end
  end.

Definition linalg_solve (a : list (list R)) (b : list R) : result (list R) :=
  match gauss (length a) (zipWith (fun row bi => row ++ [bi]) a b) with
  | Some xs => Ok xs
  | None => Raise LinAlgError
  end.

(** Lines 337-358: the pixel offsets, [bVector], [aMatrix] and the solve.
    [xPixList] and [yPixList] are the sampled pixels, [crPix1] and [crPix2]
    the reference pixel, [uList] and [vList] the intermediate world
    coordinates of the samples.  The result is [coeffs]. *)
Definition cd_coefficients (xPixList yPixList : list R) (crPix1 crPix2 : R)
  (uList vList : list R) : result (list R) :=
  let delta_xList := ufunc1 (fun x => x - crPix1) (Array1 xPixList) in
  let delta_yList := ufunc1 (fun y => y - crPix2) (Array1 yPixList) in
  xu <- ufunc2 Rmult delta_xList (Array1 uList) ;;
  yu <- ufunc2 Rmult delta_yList (Array1 uList) ;;
  xv <- ufunc2 Rmult delta_xList (Array1 vList) ;;
  yv <- ufunc2 Rmult delta_yList (Array1 vList) ;;
  let bVector := [np_sum xu; np_sum yu; np_sum xv; np_sum yv] in
  yx <- ufunc2 Rmult delta_yList delta_xList ;;
  let offDiag := np_sum yx in
  let xsq := np_sum (ufunc1 (fun d => d ^ 2) delta_xList) in
  let ysq := np_sum (ufunc1 (fun d => d ^ 2) delta_yList) in
  let aMatrix := [ [xsq; offDiag; 0; 0];
                   [offDiag; ysq; 0; 0];
                   [0; 0; xsq; offDiag];
                   [0; 0; offDiag; ysq] ] in
  linalg_solve aMatrix bVector.

(** The sum of squared residuals of the model [w_i ~ a*dx_i + b*dy_i]. *)
Fixpoint sq_residuals (a b : R) (dxs dys ws : list R) : R :=
  match dxs, dys, ws with
  | dx :: dxs', dy :: dys', w :: ws' =>
      (w - (a * dx + b * dy)) ^ 2 + sq_residuals a b dxs' dys' ws'
  | _, _, _ => 0
  end.

(* ================================================================= *)
(** ** Vocabulary of the statements *)

(** The vector [(x, y, z)] both transforms build from two angles
    (longitude-like [a], latitude-like [b]). *)
Definition sky_vector (a b : R) : vec3 :=
  (-1 * cos b * sin a, cos b * cos a, sin b).

(** The rotated vector [v2] of [_nativeLonLatFromRaDec] on scalars. *)
Definition v2_forward (ra dec raPointing decPointing : R) : vec3 :=
  let alpha := decPointing - 0.5 * PI in
  let beta := -1 * raPointing in
  mat_vec (rot_x (cos alpha) (sin alpha))
          (mat_vec (rot_z (cos beta) (sin beta)) (sky_vector ra dec)).

(** The rotated vector [v2] of [_raDecFromNativeLonLat] on scalars. *)
Definition v2_inverse (lon lat raPointing decPointing : R) : vec3 :=
  let alpha := 0.5 * PI - decPointing in
  let beta := raPointing in
  mat_vec (rot_z (cos beta) (sin beta))
          (mat_vec (rot_x (cos alpha) (sin alpha)) (sky_vector lon lat)).

Definition unit_vec (v : vec3) : Prop :=
  v_0 v * v_0 v + v_1 v * v_1 v + v_2 v * v_2 v = 1.

(** The margin by which the statements about a resolved longitude keep a
    direction away from the meridian and from the poles. *)
Definition margin : R := 1 / 100.

(** The direction [v] is clear of the poles ([cc] is not small) and of the
    meridian [v[0] = 0], where the candidate [arccos] is at the end of its
    range: [|sin(longitude)| = |v[0]|/cc] is not small. *)
Definition off_meridian (v : vec3) : Prop :=
  margin <= cc_of v /\ margin * cc_of v <= Rabs (v_0 v).

(** The flip condition as the specification words it: the sign of
    [sin(candidate)] against that of [v2[0]], or the sign of [_y] against
    that of [v2[1]], each beyond the tolerance. *)
Definition flip_as_described (candidate : R) (yy : npfloat) (v2_0 v2_1 : R)
  : bool :=
  (gtb (Rabs (sin candidate)) tol
   && negb (Z.eqb (sign (sin candidate)) (sign v2_0)))
  || (abs_gt yy tol && sign_ne yy v2_1).

(** The condition of the source as a proposition, for a defined candidate
    [_ra] and a finite quotient [_y]. *)
Definition flip_holds (_ra _y v2_0 v2_1 : R) : Prop :=
  (tol < Rabs (- sin _ra) /\ sign (- sin _ra) <> sign v2_0)
  \/ (tol < Rabs _y /\ sign _y <> sign v2_1).

(** [sum_i l1[i] * l2[i]]. *)
Definition dot_sum (l1 l2 : list R) : R :=
  fold_right Rplus 0 (zipWith Rmult l1 l2).

(* ================================================================= *)
(** ** _getTanPixelBounds *)

(** [if m is None or xx < m: m = xx]. *)
Definition lower (m : option R) (xx : R) : option R :=
  match m with
  | None => Some xx
  | Some v => if Rlt_dec xx v then Some xx else Some v
  end.

(** [if m is None or xx > m: m = xx]. *)
Definition upper (m : option R) (xx : R) : option R :=
  match m with
  | None => Some xx
  | Some v => if Rlt_dec v xx then Some xx else Some v
  end.

Section TanPixelBounds.

(** A corner of the detector, and the camera-geometry service
    [afwCamera.transform(afwDetector.makeCameraPoint(cornerPoint,
    FOCAL_PLANE), tanPixelSystem).getPoint()] as [(getX(), getY())]. *)
Variable CornerPoint : Type.
Variable tanPixelPoint : CornerPoint -> R * R.

(** The body of the loop over [cornerPointList]. *)
Definition bounds_step (b : option R * option R * option R * option R)
  (cornerPoint : CornerPoint)
  : option R * option R * option R * option R :=
  let '(xPixMin, xPixMax, yPixMin, yPixMax) := b in
  let xx := fst (tanPixelPoint cornerPoint) in
  let yy := snd (tanPixelPoint cornerPoint) in
  (lower xPixMin xx, upper xPixMax xx, lower yPixMin yy, upper yPixMax yy).

(** [_getTanPixelBounds]: [(xPixMin, xPixMax, yPixMin, yPixMax)], each
    [None] until a corner has been seen. *)
Definition _getTanPixelBounds (cornerPointList : list CornerPoint)
  : option R * option R * option R * option R :=
  fold_left bounds_step cornerPointList (None, None, None, None).

End TanPixelBounds.

(* ================================================================= *)
(** ** tanWcsFromDetector: the gnomonic projection *)

(** [numpy.tan] as [sin/cos]; where the cosine is exactly zero the value
    is the infinity of the sign of the sine. *)
Definition np_tan (a : R) : npfloat := np_div (sin a) (cos a).

(** [v * r] with [r] finite. *)
Definition np_mul (v : npfloat) (r : R) : npfloat :=
  match v with
  | Fin a => Fin (a * r)
  | PInf => if Rlt_dec 0 r then PInf else if Rlt_dec r 0 then NInf else NaN
  | NInf => if Rlt_dec 0 r then NInf else if Rlt_dec r 0 then PInf else NaN
  | NaN => NaN
  end.

(** [c / v] with [c] finite. *)
Definition np_rdiv (c : R) (v : npfloat) : npfloat :=
  match v with
  | Fin r => np_div c r
  | PInf | NInf => Fin 0
  | NaN => NaN
  end.

Definition np_neg (v : npfloat) : npfloat :=
  match v with
  | Fin a => Fin (- a)
  | PInf => NInf
  | NInf => PInf
  | NaN => NaN
  end.

(** Lines 333-335 for one sample: [radius = 180/(tan(lat)*pi)],
    [u = radius*sin(lon)], [v = -radius*cos(lon)]. *)
Definition radius_of (lat : R) : npfloat :=
  np_rdiv 180 (np_mul (np_tan lat) PI).

Definition intermediate_world (lon lat : R) : npfloat * npfloat :=
  (np_mul (radius_of lat) (sin lon),
   np_mul (np_neg (radius_of lat)) (cos lon)).

(** [numpy.arctan]. *)
Definition np_arctan (v : npfloat) : nanfloat :=
  match v with
  | Fin t => Some (atan t)
  | PInf => Some (PI / 2)
  | NInf => Some (- (PI / 2))
  | NaN => None
  end.

(** Lines 184-187 of [testTanWcs] in [tests/testWcsUtils.py], for one
    finite intermediate world coordinate [(u, v)]: the native longitude
    [arctan2(u, -v)] and latitude [arctan(180/(radius*pi))]. *)
Definition native_of_intermediate (u v : R) : R * nanfloat :=
  let localLon := arctan2 u (-1 * v) in
  let radius := sqrt (u * u + v * v) in
  let tanTheta := np_div 180 (radius * PI) in
  (localLon, np_arctan tanTheta).

(* ================================================================= *)
(** * Proofs *)

(** ** Comparisons and signs *)

Lemma gtb_true (a b : R) : gtb a b = true <-> b < a.
Proof. unfold gtb; destruct (Rlt_dec b a); intuition congruence. Qed.

Lemma gtb_false (a b : R) : gtb a b = false <-> a <= b.
Proof. unfold gtb; destruct (Rlt_dec b a); intuition (try congruence; lra). Qed.

Lemma sign_pos (r : R) : 0 < r -> sign r = 1%Z.
Proof. intros H; unfold sign; destruct (Rlt_dec 0 r); [reflexivity | lra]. Qed.

Lemma sign_neg (r : R) : r < 0 -> sign r = (-1)%Z.
Proof.
  intros H; unfold sign; destruct (Rlt_dec 0 r); [lra |].
  destruct (Rlt_dec r 0); [reflexivity | lra].
Qed.

Lemma sign_zero : sign 0 = 0%Z.
Proof.
  unfold sign; destruct (Rlt_dec 0 0); [lra |]; reflexivity.
Qed.

Lemma sign_div_pos (a c : R) : 0 < c -> sign (a / c) = sign a.
Proof.
  intros Hc.
  assert (Hi : 0 < / c) by (apply Rinv_0_lt_compat; exact Hc).
  destruct (Rtotal_order a 0) as [Ha | [Ha | Ha]].
  - rewrite (sign_neg a Ha); apply sign_neg.
    unfold Rdiv; nra.
  - subst a; unfold Rdiv; rewrite Rmult_0_l; reflexivity.
  - rewrite (sign_pos a Ha); apply sign_pos.
    unfold Rdiv; nra.
Qed.

Lemma tol_pos : 0 < tol.
Proof. unfold tol; lra. Qed.

(** ** The angles of [arctan2] with a non-negative second argument *)

Lemma arctan2_pos (y x : R) : 0 < x -> arctan2 y x = atan (y / x).
Proof. intros H; unfold arctan2; destruct (Rlt_dec 0 x); [reflexivity | lra]. Qed.

Lemma arctan2_zero_pos (y : R) : 0 < y -> arctan2 y 0 = PI / 2.
Proof.
  intros H; unfold arctan2.
  destruct (Rlt_dec 0 0); [lra |].
  destruct (Rlt_dec 0 y); [reflexivity | lra].
Qed.

Lemma arctan2_zero_neg (y : R) : y < 0 -> arctan2 y 0 = - (PI / 2).
Proof.
  intros H; unfold arctan2.
  destruct (Rlt_dec 0 0); [lra |].
  destruct (Rlt_dec 0 y); [lra |].
  destruct (Rlt_dec y 0); [reflexivity | lra].
Qed.

Lemma arctan2_zero_zero : arctan2 0 0 = 0.
Proof.
  unfold arctan2.
  destruct (Rlt_dec 0 0); [lra | reflexivity].
Qed.

Lemma cos_arctan2_nonneg (y x : R) : 0 <= x -> 0 <= cos (arctan2 y x).
Proof.
  intros Hx.
  destruct (Rle_lt_or_eq_dec 0 x Hx) as [Hp | Hz].
  - rewrite arctan2_pos by exact Hp.
    apply Rlt_le, cos_gt_0; pose proof (atan_bound (y / x)); lra.
  - subst x.
    destruct (Rtotal_order y 0) as [Hy | [Hy | Hy]].
    + rewrite arctan2_zero_neg by exact Hy.
      rewrite cos_neg, cos_PI2; lra.
    + subst y; rewrite arctan2_zero_zero, cos_0; lra.
    + rewrite arctan2_zero_pos by exact Hy.
      rewrite cos_PI2; lra.
Qed.

Lemma cc_of_nonneg (v : vec3) : 0 <= cc_of v.
Proof. unfold cc_of; apply sqrt_pos. Qed.

Lemma cos_lat_of_nonneg (v : vec3) : 0 <= cos (lat_of v).
Proof. unfold lat_of; apply cos_arctan2_nonneg, cc_of_nonneg. Qed.

(** ** Lists *)

Lemma zip5_map {V A B C D E : Type} (fa : V -> A) (fb : V -> B) (fc : V -> C)
  (fd : V -> D) (fe : V -> E) (l : list V) :
  zip5 (map fa l) (map fb l) (map fc l) (map fd l) (map fe l)
  = map (fun v => (fa v, fb v, fc v, fd v, fe v)) l.
Proof.
  induction l as [| v l IH]; simpl; [reflexivity |].
  now rewrite IH.
Qed.

Lemma length_zipWith {A B C : Type} (f : A -> B -> C) (l1 : list A) :
  forall l2, length l1 = length l2 -> length (zipWith f l1 l2) = length l1.
Proof.
  induction l1 as [| a l1 IH]; intros [| b l2] H; simpl in *;
    try reflexivity; try discriminate.
  f_equal; apply IH; lia.
Qed.

Lemma map_zipWith {A B C D : Type} (g : C -> D) (f : A -> B -> C)
  (l1 : list A) :
  forall l2, map g (zipWith f l1 l2) = zipWith (fun a b => g (f a b)) l1 l2.
Proof.
  induction l1 as [| a l1 IH]; intros [| b l2]; simpl; try reflexivity.
  now rewrite IH.
Qed.

Lemma nth_error_zipWith {A B C : Type} (f : A -> B -> C) (l1 : list A) :
  forall l2 i a b,
    nth_error l1 i = Some a -> nth_error l2 i = Some b ->
    nth_error (zipWith f l1 l2) i = Some (f a b).
Proof.
  induction l1 as [| a1 l1 IH]; intros [| b1 l2] [| i] a b Ha Hb;
    simpl in *; try discriminate.
  - congruence.
  - now apply IH.
Qed.

Lemma sky_columns (la lb : list R) :
  length la = length lb ->
  zip3 (zipWith Rmult (map (Rmult (-1)) (map cos lb)) (map sin la))
       (zipWith Rmult (map cos lb) (map cos la))
       (map sin lb)
  = zipWith sky_vector la lb.
Proof.
  revert lb; induction la as [| a la IH]; intros [| b lb] H; simpl in *;
    try reflexivity; try discriminate.
  rewrite IH by lia; reflexivity.
Qed.

(** ** The array branch is the scalar branch on every element *)

Lemma lon_array_map (cond : nanfloat -> npfloat -> R -> R -> bool)
  (vs : list vec3) :
  lon_array cond vs = map (lon_scalar cond) vs.
Proof.
  unfold lon_array.
  rewrite zip5_map, !map_map.
  apply map_ext; intros v.
  unfold lon_scalar.
  destruct (_ra_of v) as [r |]; simpl.
  - destruct (cond _ _ _ _); reflexivity.
  - destruct (cond _ _ _ _); reflexivity.
Qed.

Lemma forward_scalar (cond : nanfloat -> npfloat -> R -> R -> bool)
  (ra dec rp dp : R) :
  nativeLonLatFromRaDec_with cond (Scalar ra) (Scalar dec) rp dp
  = Ok (Scalar (lon_scalar cond (v2_forward ra dec rp dp)),
        Scalar (lat_of (v2_forward ra dec rp dp))).
Proof. reflexivity. Qed.

Lemma inverse_scalar (cond : nanfloat -> npfloat -> R -> R -> bool)
  (lon lat rp dp : R) :
  raDecFromNativeLonLat_with cond (Scalar lon) (Scalar lat) rp dp
  = Ok (Scalar (lon_scalar cond (v2_inverse lon lat rp dp)),
        Scalar (lat_of (v2_inverse lon lat rp dp))).
Proof. reflexivity. Qed.

Lemma forward_array (cond : nanfloat -> npfloat -> R -> R -> bool)
  (ras decs : list R) (rp dp : R) :
  length ras = length decs ->
  nativeLonLatFromRaDec_with cond (Array1 ras) (Array1 decs) rp dp
  = Ok (Array1 (zipWith (fun ra dec => lon_scalar cond (v2_forward ra dec rp dp))
                        ras decs),
        Array1 (zipWith (fun ra dec => lat_of (v2_forward ra dec rp dp))
                        ras decs)).
Proof.
  intros Hlen.
  unfold nativeLonLatFromRaDec_with; simpl.
  rewrite !length_map, <- Hlen, Nat.eqb_refl; simpl.
  rewrite !length_zipWith by (rewrite !length_map; lia).
  rewrite !length_map, <- Hlen, Nat.eqb_refl; simpl.
  rewrite sky_columns by exact Hlen.
  rewrite lon_array_map, !map_zipWith.
  reflexivity.
Qed.

Lemma inverse_array (cond : nanfloat -> npfloat -> R -> R -> bool)
  (lons lats : list R) (rp dp : R) :
  length lons = length lats ->
  raDecFromNativeLonLat_with cond (Array1 lons) (Array1 lats) rp dp
  = Ok (Array1 (zipWith (fun lon lat => lon_scalar cond (v2_inverse lon lat rp dp))
                        lons lats),
        Array1 (zipWith (fun lon lat => lat_of (v2_inverse lon lat rp dp))
                        lons lats)).
Proof.
  intros Hlen.
  unfold raDecFromNativeLonLat_with; simpl.
  rewrite !length_map, <- Hlen, Nat.eqb_refl; simpl.
  rewrite !length_zipWith by (rewrite !length_map; lia).
  rewrite !length_map, <- Hlen, Nat.eqb_refl; simpl.
  rewrite sky_columns by exact Hlen.
  rewrite lon_array_map, !map_zipWith.
  reflexivity.
Qed.

(** ** Unit vectors and the rotations *)

Lemma unit_sky (a b : R) : unit_vec (sky_vector a b).
Proof.
  unfold unit_vec, sky_vector, v_0, v_1, v_2; simpl.
  pose proof (sin2_cos2 a) as Ha; pose proof (sin2_cos2 b) as Hb.
  unfold Rsqr in Ha, Hb.
  replace (-1 * cos b * sin a * (-1 * cos b * sin a)
           + cos b * cos a * (cos b * cos a) + sin b * sin b)
    with (cos b * cos b * (sin a * sin a + cos a * cos a) + sin b * sin b)
    by ring.
  rewrite Ha; lra.
Qed.

Lemma unit_rot_x (ca sa : R) (v : vec3) :
  ca * ca + sa * sa = 1 -> unit_vec v -> unit_vec (mat_vec (rot_x ca sa) v).
Proof.
  destruct v as [[x y] z]; unfold unit_vec, mat_vec, rot_x, row_dot, v_0, v_1, v_2;
    simpl; intros Hc Hv.
  replace ((1 * x + 0 * y + 0 * z) * (1 * x + 0 * y + 0 * z)
           + (0 * x + ca * y + sa * z) * (0 * x + ca * y + sa * z)
           + (0 * x + -1 * sa * y + ca * z) * (0 * x + -1 * sa * y + ca * z))
    with (x * x + (ca * ca + sa * sa) * (y * y + z * z)) by ring.
  rewrite Hc; lra.
Qed.

Lemma unit_rot_z (cb sb : R) (v : vec3) :
  cb * cb + sb * sb = 1 -> unit_vec v -> unit_vec (mat_vec (rot_z cb sb) v).
Proof.
  destruct v as [[x y] z]; unfold unit_vec, mat_vec, rot_z, row_dot, v_0, v_1, v_2;
    simpl; intros Hc Hv.
  replace ((cb * x + -1 * sb * y + 0 * z) * (cb * x + -1 * sb * y + 0 * z)
           + (sb * x + cb * y + 0 * z) * (sb * x + cb * y + 0 * z)
           + (0 * x + 0 * y + 1 * z) * (0 * x + 0 * y + 1 * z))
    with ((cb * cb + sb * sb) * (x * x + y * y) + z * z) by ring.
  rewrite Hc; lra.
Qed.

Lemma cos_sin_unit (a : R) : cos a * cos a + sin a * sin a = 1.
Proof. pose proof (sin2_cos2 a) as H; unfold Rsqr in H; lra. Qed.

Lemma unit_v2_forward (ra dec rp dp : R) : unit_vec (v2_forward ra dec rp dp).
Proof.
  unfold v2_forward.
  apply unit_rot_x; [apply cos_sin_unit |].
  apply unit_rot_z; [apply cos_sin_unit |].
  apply unit_sky.
Qed.

Lemma unit_v2_inverse (lon lat rp dp : R) : unit_vec (v2_inverse lon lat rp dp).
Proof.
  unfold v2_inverse.
  apply unit_rot_z; [apply cos_sin_unit |].
  apply unit_rot_x; [apply cos_sin_unit |].
  apply unit_sky.
Qed.

Lemma rot_x_undone (ca sa : R) (v : vec3) :
  ca * ca + sa * sa = 1 ->
  mat_vec (rot_x ca (- sa)) (mat_vec (rot_x ca sa) v) = v.
Proof.
  intros H; destruct v as [[x y] z].
  unfold mat_vec, rot_x, row_dot, v_0, v_1, v_2; simpl.
  f_equal; [f_equal |].
  - ring.
  - replace (0 * (1 * x + 0 * y + 0 * z) + ca * (0 * x + ca * y + sa * z)
             + - sa * (0 * x + -1 * sa * y + ca * z))
      with ((ca * ca + sa * sa) * y) by ring.
    rewrite H; ring.
  - replace (0 * (1 * x + 0 * y + 0 * z) + -1 * - sa * (0 * x + ca * y + sa * z)
             + ca * (0 * x + -1 * sa * y + ca * z))
      with ((ca * ca + sa * sa) * z) by ring.
    rewrite H; ring.
Qed.

Lemma rot_z_undone (cb sb : R) (v : vec3) :
  cb * cb + sb * sb = 1 ->
  mat_vec (rot_z cb sb) (mat_vec (rot_z cb (- sb)) v) = v.
Proof.
  intros H; destruct v as [[x y] z].
  unfold mat_vec, rot_z, row_dot, v_0, v_1, v_2; simpl.
  f_equal; [f_equal |].
  - replace (cb * (cb * x + -1 * - sb * y + 0 * z)
             + -1 * sb * (- sb * x + cb * y + 0 * z)
             + 0 * (0 * x + 0 * y + 1 * z))
      with ((cb * cb + sb * sb) * x) by ring.
    rewrite H; ring.
  - replace (sb * (cb * x + -1 * - sb * y + 0 * z)
             + cb * (- sb * x + cb * y + 0 * z)
             + 0 * (0 * x + 0 * y + 1 * z))
      with ((cb * cb + sb * sb) * y) by ring.
    rewrite H; ring.
  - ring.
Qed.

(** The inverse transform's rotation undoes the forward transform's. *)
Lemma rotation_undone (rp dp : R) (v : vec3) :
  mat_vec (rot_z (cos rp) (sin rp))
    (mat_vec (rot_x (cos (0.5 * PI - dp)) (sin (0.5 * PI - dp)))
       (mat_vec (rot_x (cos (dp - 0.5 * PI)) (sin (dp - 0.5 * PI)))
          (mat_vec (rot_z (cos (-1 * rp)) (sin (-1 * rp))) v)))
  = v.
Proof.
  replace (0.5 * PI - dp) with (- (dp - 0.5 * PI)) by ring.
  replace (-1 * rp) with (- rp) by ring.
  rewrite !cos_neg, !sin_neg.
  rewrite rot_x_undone by apply cos_sin_unit.
  apply rot_z_undone, cos_sin_unit.
Qed.

Lemma v2_inverse_forward (ra dec rp dp : R) (lon lat : R) :
  sky_vector lon lat = v2_forward ra dec rp dp ->
  v2_inverse lon lat rp dp = sky_vector ra dec.
Proof.
  intros H; unfold v2_inverse; rewrite H; unfold v2_forward.
  apply rotation_undone.
Qed.

(** ** Latitude and longitude candidate of a unit vector *)

Lemma cc_of_sqr (v : vec3) : cc_of v * cc_of v = v_0 v * v_0 v + v_1 v * v_1 v.
Proof. unfold cc_of; apply sqrt_sqrt; nra. Qed.

Lemma cc_zero_inv (v : vec3) : cc_of v = 0 -> v_0 v = 0 /\ v_1 v = 0.
Proof.
  intros H; pose proof (cc_of_sqr v) as Hs; rewrite H in Hs.
  split; nra.
Qed.

Lemma lat_of_pos (v : vec3) :
  0 < cc_of v -> lat_of v = atan (v_2 v / cc_of v).
Proof. intros H; unfold lat_of; apply arctan2_pos, H. Qed.

Lemma unit_sqrt_atan (v : vec3) :
  unit_vec v -> 0 < cc_of v ->
  sqrt (1 + (v_2 v / cc_of v)²) = / cc_of v.
Proof.
  intros Hu Hc; pose proof (cc_of_sqr v) as Hs; unfold unit_vec in Hu.
  replace (1 + (v_2 v / cc_of v)²) with (/ cc_of v * / cc_of v).
  - apply sqrt_square, Rlt_le, Rinv_0_lt_compat, Hc.
  - unfold Rsqr; field_simplify_eq; [nra | lra].
Qed.

Lemma cos_lat_unit (v : vec3) : unit_vec v -> cos (lat_of v) = cc_of v.
Proof.
  intros Hu.
  destruct (Rle_lt_or_eq_dec 0 (cc_of v) (cc_of_nonneg v)) as [Hc | Hc].
  - rewrite lat_of_pos by exact Hc.
    rewrite cos_atan, unit_sqrt_atan by assumption.
    field; lra.
  - symmetry in Hc; destruct (cc_zero_inv v Hc) as [H0 H1].
    unfold unit_vec in Hu; rewrite H0, H1 in Hu.
    unfold lat_of; rewrite Hc.
    destruct (Rtotal_order (v_2 v) 0) as [Hz | [Hz | Hz]].
    + rewrite arctan2_zero_neg by exact Hz; rewrite cos_neg; apply cos_PI2.
    + rewrite Hz in Hu; lra.
    + rewrite arctan2_zero_pos by exact Hz; apply cos_PI2.
Qed.

Lemma sin_lat_unit (v : vec3) : unit_vec v -> sin (lat_of v) = v_2 v.
Proof.
  intros Hu.
  destruct (Rle_lt_or_eq_dec 0 (cc_of v) (cc_of_nonneg v)) as [Hc | Hc].
  - rewrite lat_of_pos by exact Hc.
    rewrite sin_atan, unit_sqrt_atan by assumption.
    field; lra.
  - symmetry in Hc; destruct (cc_zero_inv v Hc) as [H0 H1].
    unfold unit_vec in Hu; rewrite H0, H1 in Hu.
    unfold lat_of; rewrite Hc.
    destruct (Rtotal_order (v_2 v) 0) as [Hz | [Hz | Hz]].
    + rewrite arctan2_zero_neg by exact Hz; rewrite sin_neg, sin_PI2; nra.
    + rewrite Hz in Hu; lra.
    + rewrite arctan2_zero_pos by exact Hz; rewrite sin_PI2; nra.
Qed.

Lemma unit_quotient_bounds (v : vec3) :
  0 < cc_of v -> -1 <= v_1 v / cc_of v <= 1.
Proof.
  intros Hc; pose proof (cc_of_sqr v) as Hs.
  assert (Hq : v_1 v / cc_of v * cc_of v = v_1 v) by (field; lra).
  set (q := v_1 v / cc_of v) in *.
  assert (Hqq : q * q * (cc_of v * cc_of v) = v_1 v * v_1 v)
    by (rewrite <- Hq; ring).
  assert (Hle : q * q <= 1).
  { apply Rmult_le_reg_r with (cc_of v * cc_of v); nra. }
  split; nra.
Qed.

Lemma _y_of_unit (v : vec3) :
  unit_vec v -> 0 < cc_of v -> _y_of v = Fin (v_1 v / cc_of v).
Proof.
  intros Hu Hc; unfold _y_of, np_div.
  rewrite cos_lat_unit by exact Hu.
  destruct (Req_dec_T (cc_of v) 0); [lra | reflexivity].
Qed.

Lemma _ra_of_unit (v : vec3) :
  unit_vec v -> 0 < cc_of v -> _ra_of v = Some (acos (v_1 v / cc_of v)).
Proof.
  intros Hu Hc; unfold _ra_of; rewrite _y_of_unit by assumption.
  destruct (unit_quotient_bounds v Hc) as [Hl Hh].
  unfold np_arccos.
  destruct (Rle_dec (-1) (v_1 v / cc_of v)); [| lra].
  destruct (Rle_dec (v_1 v / cc_of v) 1); [reflexivity | lra].
Qed.

Lemma sin_candidate_unit (v : vec3) :
  0 < cc_of v ->
  sin (acos (v_1 v / cc_of v)) = Rabs (v_0 v) / cc_of v.
Proof.
  intros Hc; pose proof (cc_of_sqr v) as Hs.
  rewrite sin_acos by (apply unit_quotient_bounds, Hc).
  replace (1 - (v_1 v / cc_of v)²) with ((Rabs (v_0 v) / cc_of v)²).
  - apply sqrt_Rsqr.
    apply Rmult_le_pos; [apply Rabs_pos | apply Rlt_le, Rinv_0_lt_compat, Hc].
  - unfold Rsqr.
    assert (Ha : Rabs (v_0 v) * Rabs (v_0 v) = v_0 v * v_0 v).
    { unfold Rabs; destruct (Rcase_abs (v_0 v)); ring. }
    field_simplify_eq; [nra | lra].
Qed.

Lemma _ra_of_pole (v : vec3) : unit_vec v -> cc_of v = 0 -> _ra_of v = None.
Proof.
  intros Hu Hc; unfold _ra_of, _y_of, np_div.
  rewrite cos_lat_unit by exact Hu.
  destruct (cc_zero_inv v Hc) as [_ H1]; rewrite H1.
  destruct (Req_dec_T (cc_of v) 0); [| contradiction].
  destruct (Rlt_dec 0 0); [lra |]; reflexivity.
Qed.

Lemma _ra_of_cos_zero (v : vec3) : cos (lat_of v) = 0 -> _ra_of v = None.
Proof.
  intros Hc; unfold _ra_of, _y_of, np_div; rewrite Hc.
  destruct (Req_dec_T 0 0) as [_ | Hn]; [| now elim Hn].
  destruct (Rlt_dec 0 (v_1 v)); [reflexivity |].
  destruct (Rlt_dec (v_1 v) 0); reflexivity.
Qed.

(** With a defined candidate the y-clause of the condition is false. *)
Lemma y_clause_false (v : vec3) (r : R) :
  _ra_of v = Some r ->
  abs_gt (_y_of v) tol && sign_ne (_y_of v) (v_1 v) = false.
Proof.
  intros Hr.
  destruct (Req_dec_T (cos (lat_of v)) 0) as [Hz | Hnz].
  - rewrite _ra_of_cos_zero in Hr by exact Hz; discriminate.
  - assert (Hp : 0 < cos (lat_of v))
      by (pose proof (cos_lat_of_nonneg v); lra).
    unfold _y_of, np_div.
    destruct (Req_dec_T (cos (lat_of v)) 0); [contradiction |].
    unfold sign_ne; simpl.
    rewrite sign_div_pos by exact Hp.
    rewrite Z.eqb_refl; simpl.
    apply andb_false_r.
Qed.

Lemma flip_x_only_eq (v : vec3) (r : R) :
  _ra_of v = Some r ->
  flip (_x_of v) (_y_of v) (v_0 v) (v_1 v)
  = flip_x_only (_x_of v) (_y_of v) (v_0 v) (v_1 v).
Proof.
  intros Hr; unfold flip, flip_x_only.
  rewrite (y_clause_false v r Hr); apply orb_false_r.
Qed.

Lemma lon_scalar_x_only (v : vec3) :
  lon_scalar flip_x_only v = lon_scalar flip v.
Proof.
  unfold lon_scalar.
  destruct (_ra_of v) as [r |] eqn:Hr; [| reflexivity].
  now rewrite (flip_x_only_eq v r Hr).
Qed.

(** The longitude of a unit vector away from the pole, in closed form. *)
Lemma lon_scalar_unit (v : vec3) :
  unit_vec v -> 0 < cc_of v ->
  lon_scalar flip v
  = if Rlt_dec (tol * cc_of v) (v_0 v)
    then 2 * PI - acos (v_1 v / cc_of v)
    else acos (v_1 v / cc_of v).
Proof.
  intros Hu Hc.
  rewrite <- lon_scalar_x_only.
  unfold lon_scalar, _x_of; rewrite _ra_of_unit by assumption.
  unfold flip_x_only, neg_sin, of_nanfloat, abs_gt, sign_ne, np_sign.
  rewrite sin_candidate_unit by exact Hc.
  pose proof tol_pos as Ht.
  assert (Hi : 0 < / cc_of v) by (apply Rinv_0_lt_compat, Hc).
  assert (Hq : Rabs (v_0 v) / cc_of v * cc_of v = Rabs (v_0 v)) by (field; lra).
  destruct (Rlt_dec (tol * cc_of v) (v_0 v)) as [Hf | Hf].
  - assert (H0 : 0 < v_0 v) by nra.
    rewrite (Rabs_pos_eq (v_0 v)) in * by lra.
    assert (Hg : gtb (Rabs (- (v_0 v / cc_of v))) tol = true).
    { apply gtb_true; rewrite Rabs_Ropp, Rabs_pos_eq; nra. }
    rewrite Hg, (sign_pos (v_0 v)) by exact H0.
    rewrite sign_neg by nra.
    reflexivity.
  - destruct (Rtotal_order (v_0 v) 0) as [H0 | [H0 | H0]].
    + rewrite (sign_neg (v_0 v)) by exact H0.
      rewrite sign_neg.
      * simpl; rewrite andb_false_r; reflexivity.
      * rewrite (Rabs_left (v_0 v)) in * by exact H0; nra.
    + rewrite H0, Rabs_R0.
      replace (- (0 / cc_of v)) with 0 by (field; lra).
      assert (Hg : gtb (Rabs 0) tol = false)
        by (apply gtb_false; rewrite Rabs_R0; lra).
      rewrite Hg; reflexivity.
    + rewrite (Rabs_pos_eq (v_0 v)) in * by lra.
      assert (Hg : gtb (Rabs (- (v_0 v / cc_of v))) tol = false).
      { apply gtb_false; rewrite Rabs_Ropp, Rabs_pos_eq; nra. }
      rewrite Hg; reflexivity.
Qed.

(** ** From a vector to its angles and back *)

Lemma sin_2PI_minus (c : R) : sin (2 * PI - c) = - sin c.
Proof. rewrite sin_minus, sin_2PI, cos_2PI; ring. Qed.

Lemma cos_2PI_minus (c : R) : cos (2 * PI - c) = cos c.
Proof. rewrite cos_minus, sin_2PI, cos_2PI; ring. Qed.

Lemma vec3_eq (v : vec3) (x y z : R) :
  x = v_0 v -> y = v_1 v -> z = v_2 v -> (x, y, z) = v.
Proof.
  destruct v as [[a b] c]; unfold v_0, v_1, v_2; simpl; congruence.
Qed.

(** The angles computed from a unit vector give the vector back, unless
    the tolerance of the flip condition left a positive [v2[0]] unnoticed. *)
Lemma sky_of_resolved (v : vec3) :
  unit_vec v ->
  v_0 v <= 0 \/ tol * cc_of v < v_0 v ->
  sky_vector (lon_scalar flip v) (lat_of v) = v.
Proof.
  intros Hu Hg; unfold sky_vector.
  rewrite cos_lat_unit, sin_lat_unit by exact Hu.
  destruct (Rle_lt_or_eq_dec 0 (cc_of v) (cc_of_nonneg v)) as [Hc | Hc].
  - pose proof (sin_candidate_unit v Hc) as Hs.
    pose proof (cos_acos _ (unit_quotient_bounds v Hc)) as Hk.
    rewrite lon_scalar_unit by assumption.
    destruct (Rlt_dec (tol * cc_of v) (v_0 v)) as [Hf | Hf].
    + assert (H0 : 0 < v_0 v) by (pose proof tol_pos; nra).
      rewrite Rabs_pos_eq in Hs by lra.
      rewrite sin_2PI_minus, cos_2PI_minus, Hs, Hk.
      apply vec3_eq; [field; lra | field; lra | reflexivity].
    + assert (H0 : v_0 v <= 0) by (destruct Hg; [assumption | contradiction]).
      assert (Ha : Rabs (v_0 v) = - v_0 v).
      { destruct (Rle_lt_or_eq_dec _ _ H0) as [Hn | Hz].
        - apply Rabs_left, Hn.
        - rewrite Hz, Rabs_R0; ring. }
      rewrite Ha in Hs; rewrite Hs, Hk.
      apply vec3_eq; [field; lra | field; lra | reflexivity].
  - symmetry in Hc; destruct (cc_zero_inv v Hc) as [H0 H1].
    unfold lon_scalar; rewrite _ra_of_pole by assumption.
    rewrite Hc, sin_0, cos_0.
    apply vec3_eq; [rewrite H0; ring | rewrite H1; ring | reflexivity].
Qed.

Lemma cc_of_sky (a b : R) : 0 <= cos b -> cc_of (sky_vector a b) = cos b.
Proof.
  intros Hb; unfold cc_of, sky_vector, v_0, v_1; simpl.
  pose proof (cos_sin_unit a) as Ha.
  replace (-1 * cos b * sin a * (-1 * cos b * sin a)
           + cos b * cos a * (cos b * cos a))
    with (cos b * cos b * (cos a * cos a + sin a * sin a)) by ring.
  rewrite Ha, Rmult_1_r.
  apply sqrt_square, Hb.
Qed.

(** The angles computed from the vector of [(a, b)] are [(a, b)] on the
    principal range, unless the tolerance left a negative [sin a]
    unnoticed. *)
Lemma resolved_of_sky (a b : R) :
  0 <= a < 2 * PI ->
  - (PI / 2) < b < PI / 2 ->
  sin a < - tol \/ 0 <= sin a ->
  lon_scalar flip (sky_vector a b) = a /\ lat_of (sky_vector a b) = b.
Proof.
  intros Ha Hb Hg.
  assert (Hcb : 0 < cos b) by (apply cos_gt_0; lra).
  pose proof (cc_of_sky a b (Rlt_le _ _ Hcb)) as Hcc.
  assert (Hc : 0 < cc_of (sky_vector a b)) by (rewrite Hcc; exact Hcb).
  split.
  - rewrite lon_scalar_unit by (exact Hc || apply unit_sky).
    rewrite Hcc; unfold sky_vector, v_0, v_1; simpl.
    replace (cos b * cos a / cos b) with (cos a) by (field; lra).
    pose proof tol_pos as Ht.
    destruct (Rlt_dec (tol * cos b) (-1 * cos b * sin a)) as [Hf | Hf].
    + assert (Hs : sin a < 0) by nra.
      assert (Hpi : PI < a).
      { destruct (Rlt_le_dec PI a) as [H | H]; [exact H |].
        pose proof (sin_ge_0 a (proj1 Ha) H); lra. }
      rewrite <- (cos_2PI_minus a), acos_cos by lra.
      ring.
    + assert (Hs : 0 <= sin a).
      { destruct Hg as [Hn | Hp]; [| exact Hp].
        exfalso; apply Hf; nra. }
      assert (Hpi : a <= PI).
      { destruct (Rlt_le_dec PI a) as [H | H]; [| exact H].
        pose proof (sin_lt_0 a H (proj2 Ha)); lra. }
      apply acos_cos; lra.
  - rewrite lat_of_pos by exact Hc.
    rewrite Hcc; unfold sky_vector, v_2; simpl.
    change (sin b / cos b) with (tan b).
    apply atan_tan; lra.
Qed.

(** ** Pointing at the celestial pole: the rotation is the identity *)

Lemma v2_inverse_polar (lon lat : R) :
  v2_inverse lon lat 0 (PI / 2) = sky_vector lon lat.
Proof.
  unfold v2_inverse.
  replace (0.5 * PI - PI / 2) with 0 by lra.
  rewrite cos_0, sin_0.
  destruct (sky_vector lon lat) as [[x y] z].
  unfold mat_vec, rot_x, rot_z, row_dot, v_0, v_1, v_2; simpl.
  f_equal; [f_equal |]; ring.
Qed.

(** ** Vectors on the native equator *)

Lemma equator_vector (x y : R) :
  x * x + y * y = 1 ->
  lat_of (x, y, 0) = 0
  /\ lon_scalar flip (x, y, 0)
     = if Rlt_dec tol x then 2 * PI - acos y else acos y.
Proof.
  intros H.
  assert (Hcc : cc_of (x, y, 0) = 1).
  { unfold cc_of, v_0, v_1; simpl; rewrite H; apply sqrt_1. }
  assert (Hu : unit_vec (x, y, 0)).
  { unfold unit_vec, v_0, v_1, v_2; simpl; lra. }
  split.
  - rewrite lat_of_pos by (rewrite Hcc; lra).
    rewrite Hcc; unfold v_2; simpl.
    replace (0 / 1) with 0 by field.
    apply atan_0.
  - rewrite lon_scalar_unit by (exact Hu || (rewrite Hcc; lra)).
    rewrite Hcc, Rmult_1_r; unfold v_0, v_1; simpl.
    replace (y / 1) with y by field.
    reflexivity.
Qed.

Lemma acos_m1 : acos (-1) = PI.
Proof.
  change (IZR (-1)) with (- (IZR 1)).
  rewrite acos_opp, acos_1; ring.
Qed.

(** With [decPointing = 0] the x rotation sends [(x, y, z)] to
    [(x, -z, y)]. *)
Lemma v2_forward_equatorial (ra dec rp : R) :
  v2_forward ra dec rp 0
  = (cos rp * v_0 (sky_vector ra dec) + sin rp * v_1 (sky_vector ra dec),
     - v_2 (sky_vector ra dec),
     - sin rp * v_0 (sky_vector ra dec) + cos rp * v_1 (sky_vector ra dec)).
Proof.
  unfold v2_forward.
  replace (0 - 0.5 * PI) with (- (PI / 2)) by lra.
  replace (-1 * rp) with (- rp) by ring.
  rewrite !cos_neg, !sin_neg, cos_PI2, sin_PI2.
  destruct (sky_vector ra dec) as [[x y] z].
  unfold mat_vec, rot_x, rot_z, row_dot, v_0, v_1, v_2; simpl.
  f_equal; [f_equal |]; ring.
Qed.

Lemma known_vector_1 : v2_forward 0 (PI / 2) 0 0 = (0, -1, 0).
Proof.
  rewrite v2_forward_equatorial.
  unfold sky_vector, v_0, v_1, v_2; simpl.
  rewrite cos_PI2, sin_PI2, cos_0, sin_0.
  f_equal; [f_equal |]; ring.
Qed.

Lemma known_vector_2 : v2_forward 0 0 (3 * (PI / 2)) 0 = (-1, 0, 0).
Proof.
  rewrite v2_forward_equatorial.
  unfold sky_vector, v_0, v_1, v_2; simpl.
  rewrite cos_3PI2, sin_3PI2, cos_0, sin_0.
  f_equal; [f_equal |]; ring.
Qed.

Lemma known_vector_3 : v2_forward (3 * (PI / 2)) 0 0 0 = (1, 0, 0).
Proof.
  rewrite v2_forward_equatorial.
  unfold sky_vector, v_0, v_1, v_2; simpl.
  rewrite cos_3PI2, sin_3PI2, cos_0, sin_0.
  f_equal; [f_equal |]; ring.
Qed.

Lemma known_radians_1 :
  _nativeLonLatFromRaDec (Scalar 0) (Scalar (PI / 2)) 0 0
  = Ok (Scalar PI, Scalar 0).
Proof.
  unfold _nativeLonLatFromRaDec; rewrite forward_scalar, known_vector_1.
  destruct (equator_vector 0 (-1)) as [Hlat Hlon]; [ring |].
  rewrite Hlat, Hlon.
  destruct (Rlt_dec tol 0) as [H | _]; [pose proof tol_pos; lra |].
  now rewrite acos_m1.
Qed.

Lemma known_radians_2 :
  _nativeLonLatFromRaDec (Scalar 0) (Scalar 0) (3 * (PI / 2)) 0
  = Ok (Scalar (PI / 2), Scalar 0).
Proof.
  unfold _nativeLonLatFromRaDec; rewrite forward_scalar, known_vector_2.
  destruct (equator_vector (-1) 0) as [Hlat Hlon]; [ring |].
  rewrite Hlat, Hlon.
  destruct (Rlt_dec tol (-1)) as [H | _]; [pose proof tol_pos; lra |].
  now rewrite acos_0.
Qed.

Lemma known_radians_3 :
  _nativeLonLatFromRaDec (Scalar (3 * (PI / 2))) (Scalar 0) 0 0
  = Ok (Scalar (3 * (PI / 2)), Scalar 0).
Proof.
  unfold _nativeLonLatFromRaDec; rewrite forward_scalar, known_vector_3.
  destruct (equator_vector 1 0) as [Hlat Hlon]; [ring |].
  rewrite Hlat, Hlon.
  destruct (Rlt_dec tol 1) as [_ | H]; [| unfold tol in H; lra].
  rewrite acos_0; do 2 f_equal; f_equal; lra.
Qed.

Lemma radians_0 : radians 0 = 0.
Proof. unfold radians; ring. Qed.

Lemma radians_90 : radians 90 = PI / 2.
Proof. unfold radians; lra. Qed.

Lemma radians_270 : radians 270 = 3 * (PI / 2).
Proof. unfold radians; lra. Qed.

Lemma degrees_0 : degrees 0 = 0.
Proof. unfold degrees; ring. Qed.

Lemma degrees_PI (k : R) : degrees (k * PI) = k * 180.
Proof. unfold degrees; field; pose proof PI_RGT_0; lra. Qed.

(** C9.  The three known values of the degrees-level forward transform:
    [(ra, dec) = (0, 90)] seen from pointing [(0, 0)] is at native
    [(180, 0)]; [(0, 0)] seen from pointing [(270, 0)] is at [(90, 0)];
    [(270, 0)] seen from pointing [(0, 0)] is at [(270, 0)]. *)
Theorem known_values_degrees :
  nativeLonLatFromRaDec (Scalar 0) (Scalar 90) 0 0
  = Ok (Scalar 180, Scalar 0)
  /\ nativeLonLatFromRaDec (Scalar 0) (Scalar 0) 270 0
     = Ok (Scalar 90, Scalar 0)
  /\ nativeLonLatFromRaDec (Scalar 270) (Scalar 0) 0 0
     = Ok (Scalar 270, Scalar 0).
Proof.
  unfold nativeLonLatFromRaDec; simpl ufunc1.
  rewrite radians_0, radians_90, radians_270.
  rewrite known_radians_1, known_radians_2, known_radians_3; simpl.
  rewrite degrees_0.
  replace PI with (1 * PI) at 1 by ring.
  replace (PI / 2) with (/ 2 * PI) by field.
  replace (3 * (/ 2 * PI)) with (3 / 2 * PI) by field.
  rewrite !degrees_PI.
  repeat split; do 2 f_equal; f_equal; lra.
Qed.

(** ** The flip condition *)

Lemma _ra_of_some (v : vec3) (r : R) :
  _ra_of v = Some r ->
  _y_of v = Fin (v_1 v / cos (lat_of v))
  /\ r = acos (v_1 v / cos (lat_of v)).
Proof.
  unfold _ra_of, _y_of, np_div.
  destruct (Req_dec_T (cos (lat_of v)) 0).
  - destruct (Rlt_dec 0 (v_1 v)); [discriminate |].
    destruct (Rlt_dec (v_1 v) 0); discriminate.
  - simpl.
    destruct (Rle_dec (-1) (v_1 v / cos (lat_of v))); [| discriminate].
    destruct (Rle_dec (v_1 v / cos (lat_of v)) 1); [| discriminate].
    intros H; injection H as H; split; congruence.
Qed.

Lemma flip_reflect (r q a b : R) :
  flip (Some (- sin r)) (Fin q) a b = true <-> flip_holds r q a b.
Proof.
  unfold flip, flip_holds, of_nanfloat, abs_gt, sign_ne, np_sign.
  rewrite orb_true_iff, !andb_true_iff, !negb_true_iff, !gtb_true.
  rewrite !Z.eqb_neq.
  reflexivity.
Qed.

(** C2, as stated, fails: for [(ra, dec) = (0, 0)] seen from the pointing
    [(3*pi/2, 0)] the rotated vector is [(-1, 0, 0)] and the candidate is
    [pi/2]; [sin(candidate) = 1] and [x' = -1] disagree in sign by more
    than the tolerance, and yet the candidate is kept.  The source compares
    the sign of [-sin(candidate)]. *)
Lemma flip_rule_counterexample :
  _ra_of (v2_forward 0 0 (3 * (PI / 2)) 0) = Some (PI / 2)
  /\ flip_as_described (PI / 2)
       (_y_of (v2_forward 0 0 (3 * (PI / 2)) 0))
       (v_0 (v2_forward 0 0 (3 * (PI / 2)) 0))
       (v_1 (v2_forward 0 0 (3 * (PI / 2)) 0)) = true
  /\ _nativeLonLatFromRaDec (Scalar 0) (Scalar 0) (3 * (PI / 2)) 0
     = Ok (Scalar (PI / 2), Scalar 0)
  /\ PI / 2 <> 2 * PI - PI / 2.
Proof.
  rewrite known_vector_2.
  assert (Hcc : cc_of (-1, 0, 0) = 1).
  { unfold cc_of, v_0, v_1; simpl.
    replace (-1 * -1 + 0 * 0) with 1 by ring; apply sqrt_1. }
  assert (Hu : unit_vec (-1, 0, 0)).
  { unfold unit_vec, v_0, v_1, v_2; simpl; ring. }
  repeat split.
  - rewrite _ra_of_unit by (exact Hu || (rewrite Hcc; lra)).
    rewrite Hcc; unfold v_1; simpl.
    replace (0 / 1) with 0 by field.
    now rewrite acos_0.
  - unfold flip_as_described.
    rewrite sin_PI2, Rabs_R1.
    assert (Hg : gtb 1 tol = true) by (apply gtb_true; unfold tol; lra).
    rewrite Hg; unfold v_0; simpl.
    rewrite sign_pos, sign_neg by lra.
    reflexivity.
  - apply known_radians_2.
  - pose proof PI_RGT_0; lra.
Qed.

(** C2, amended.  When the candidate [_ra = arccos(_y)], with
    [_y = y'/cos(lat)], is a real number, the longitude is [2*pi - _ra]
    exactly when [-sin(_ra)] exceeds [1e-9] in magnitude and differs in sign
    from the rotated [x'], or [_y] exceeds [1e-9] in magnitude and differs in
    sign from the rotated [y']; otherwise it is [_ra]. *)
Theorem longitude_flip_rule (ra dec raPointing decPointing _ra : R) :
  _ra_of (v2_forward ra dec raPointing decPointing) = Some _ra ->
  let v2 := v2_forward ra dec raPointing decPointing in
  let _y := v_1 v2 / cos (lat_of v2) in
  _ra = acos _y
  /\ exists lon,
      _nativeLonLatFromRaDec (Scalar ra) (Scalar dec) raPointing decPointing
      = Ok (Scalar lon, Scalar (lat_of v2))
      /\ ((flip_holds _ra _y (v_0 v2) (v_1 v2) /\ lon = 2 * PI - _ra)
          \/ (~ flip_holds _ra _y (v_0 v2) (v_1 v2) /\ lon = _ra)).
Proof.
  intros Hr v2 _y.
  destruct (_ra_of_some _ _ Hr) as [Hy Hacos].
  split; [exact Hacos |].
  exists (lon_scalar flip v2).
  split; [apply forward_scalar |].
  unfold lon_scalar, _x_of; fold v2 in Hr, Hy; rewrite Hr, Hy; simpl.
  fold _y.
  destruct (flip (Some (- sin _ra)) (Fin _y) (v_0 v2) (v_1 v2)) eqn:Hf.
  - left; split; [apply flip_reflect, Hf | reflexivity].
  - right; split; [| reflexivity].
    intros Hh; apply flip_reflect in Hh; congruence.
Qed.

Lemma longitude_flip_rule_witness :
  PI / 2 = acos (v_1 (v2_forward (3 * (PI / 2)) 0 0 0)
                 / cos (lat_of (v2_forward (3 * (PI / 2)) 0 0 0)))
  /\ exists lon,
      _nativeLonLatFromRaDec (Scalar (3 * (PI / 2))) (Scalar 0) 0 0
      = Ok (Scalar lon, Scalar (lat_of (v2_forward (3 * (PI / 2)) 0 0 0)))
      /\ ((flip_holds (PI / 2)
             (v_1 (v2_forward (3 * (PI / 2)) 0 0 0)
              / cos (lat_of (v2_forward (3 * (PI / 2)) 0 0 0)))
             (v_0 (v2_forward (3 * (PI / 2)) 0 0 0))
             (v_1 (v2_forward (3 * (PI / 2)) 0 0 0))
           /\ lon = 2 * PI - PI / 2)
          \/ (~ flip_holds (PI / 2)
                (v_1 (v2_forward (3 * (PI / 2)) 0 0 0)
                 / cos (lat_of (v2_forward (3 * (PI / 2)) 0 0 0)))
                (v_0 (v2_forward (3 * (PI / 2)) 0 0 0))
                (v_1 (v2_forward (3 * (PI / 2)) 0 0 0))
              /\ lon = PI / 2)).
Proof.
  apply (longitude_flip_rule (3 * (PI / 2)) 0 0 0 (PI / 2)).
  rewrite known_vector_3.
  assert (Hcc : cc_of (1, 0, 0) = 1).
  { unfold cc_of, v_0, v_1; simpl.
    replace (1 * 1 + 0 * 0) with 1 by ring; apply sqrt_1. }
  assert (Hu : unit_vec (1, 0, 0)).
  { unfold unit_vec, v_0, v_1, v_2; simpl; ring. }
  rewrite _ra_of_unit by (exact Hu || (rewrite Hcc; lra)).
  rewrite Hcc; unfold v_1; simpl.
  replace (0 / 1) with 0 by field.
  now rewrite acos_0.
Defined.

(** ** The y-clause *)

Lemma lon_lat_of_x_only (v2 : ndarray vec3) :
  lon_lat_of flip_x_only v2 = lon_lat_of flip v2.
Proof.
  destruct v2 as [v | vs]; simpl.
  - now rewrite lon_scalar_x_only.
  - rewrite !lon_array_map.
    do 2 f_equal; apply map_ext, lon_scalar_x_only.
Qed.

Ltac case_binds :=
  repeat match goal with
         | |- context [match ?m with Ok _ => _ | Raise _ => _ end] =>
             destruct m; simpl
         end.

(** C10.  The latitude is [arctan2(z', cc)] with [cc >= 0], so its cosine
    is never negative; whenever the candidate is defined the y-clause of
    the flip condition is false; and each transform is equal, on every
    input, to the transform with that clause deleted. *)
Theorem y_clause_redundant :
  (forall v2 : vec3, 0 <= cc_of v2 /\ 0 <= cos (lat_of v2))
  /\ (forall (v2 : vec3) (_ra : R),
         _ra_of v2 = Some _ra ->
         abs_gt (_y_of v2) tol && sign_ne (_y_of v2) (v_1 v2) = false)
  /\ (forall (ra dec : ndarray R) (raPointing decPointing : R),
         _nativeLonLatFromRaDec_x_only ra dec raPointing decPointing
         = _nativeLonLatFromRaDec ra dec raPointing decPointing)
  /\ (forall (lon lat : ndarray R) (raPointing decPointing : R),
         _raDecFromNativeLonLat_x_only lon lat raPointing decPointing
         = _raDecFromNativeLonLat lon lat raPointing decPointing).
Proof.
  split; [| split; [| split]].
  - intros v2; split; [apply cc_of_nonneg | apply cos_lat_of_nonneg].
  - apply y_clause_false.
  - intros ra dec rp dp.
    unfold _nativeLonLatFromRaDec_x_only, _nativeLonLatFromRaDec,
      nativeLonLatFromRaDec_with, bind.
    case_binds; try reflexivity.
    now rewrite lon_lat_of_x_only.
  - intros lon lat rp dp.
    unfold _raDecFromNativeLonLat_x_only, _raDecFromNativeLonLat,
      raDecFromNativeLonLat_with, bind.
    case_binds; try reflexivity.
    now rewrite lon_lat_of_x_only.
Qed.

Lemma y_clause_redundant_witness :
  abs_gt (_y_of (v2_forward (3 * (PI / 2)) 0 0 0)) tol
  && sign_ne (_y_of (v2_forward (3 * (PI / 2)) 0 0 0))
       (v_1 (v2_forward (3 * (PI / 2)) 0 0 0)) = false.
Proof.
  apply (proj1 (proj2 y_clause_redundant) _ (PI / 2)).
  rewrite known_vector_3.
  assert (Hcc : cc_of (1, 0, 0) = 1).
  { unfold cc_of, v_0, v_1; simpl.
    replace (1 * 1 + 0 * 0) with 1 by ring; apply sqrt_1. }
  assert (Hu : unit_vec (1, 0, 0)).
  { unfold unit_vec, v_0, v_1, v_2; simpl; ring. }
  rewrite _ra_of_unit by (exact Hu || (rewrite Hcc; lra)).
  rewrite Hcc; unfold v_1; simpl.
  replace (0 / 1) with 0 by field.
  now rewrite acos_0.
Defined.

(** ** Batches *)

(** C8.  On an equal-length batch and a scalar pointing the array branch
    of [_nativeLonLatFromRaDec] returns two arrays of the length of the
    batch whose [i]-th entries are exactly the [(lon, lat)] that the scalar
    branch returns for the [i]-th [(ra, dec)]; equal, hence within
    [1e-10]. *)
Theorem batch_equals_elementwise (ras decs : list R)
  (raPointing decPointing : R) :
  length ras = length decs ->
  exists lons lats,
    _nativeLonLatFromRaDec (Array1 ras) (Array1 decs) raPointing decPointing
    = Ok (Array1 lons, Array1 lats)
    /\ length lons = length ras
    /\ length lats = length ras
    /\ forall i ra dec,
        nth_error ras i = Some ra ->
        nth_error decs i = Some dec ->
        exists lon lat,
          _nativeLonLatFromRaDec (Scalar ra) (Scalar dec)
            raPointing decPointing
          = Ok (Scalar lon, Scalar lat)
          /\ nth_error lons i = Some lon
          /\ nth_error lats i = Some lat.
Proof.
  intros Hlen.
  unfold _nativeLonLatFromRaDec.
  rewrite forward_array by exact Hlen.
  eexists; eexists; split; [reflexivity |].
  split; [apply length_zipWith, Hlen |].
  split; [apply length_zipWith, Hlen |].
  intros i ra dec Hra Hdec.
  rewrite forward_scalar.
  eexists; eexists; split; [reflexivity |].
  split.
  - apply (nth_error_zipWith
             (fun ra dec =>
                lon_scalar flip (v2_forward ra dec raPointing decPointing)));
      assumption.
  - apply (nth_error_zipWith
             (fun ra dec => lat_of (v2_forward ra dec raPointing decPointing)));
      assumption.
Qed.

Lemma batch_equals_elementwise_witness :
  exists lons lats,
    _nativeLonLatFromRaDec (Array1 [0; 3 * (PI / 2)]) (Array1 [PI / 2; 0]) 0 0
    = Ok (Array1 lons, Array1 lats)
    /\ length lons = length [0; 3 * (PI / 2)]
    /\ length lats = length [0; 3 * (PI / 2)]
    /\ forall i ra dec,
        nth_error [0; 3 * (PI / 2)] i = Some ra ->
        nth_error [PI / 2; 0] i = Some dec ->
        exists lon lat,
          _nativeLonLatFromRaDec (Scalar ra) (Scalar dec) 0 0
          = Ok (Scalar lon, Scalar lat)
          /\ nth_error lons i = Some lon
          /\ nth_error lats i = Some lat.
Proof.
  apply (batch_equals_elementwise [0; 3 * (PI / 2)] [PI / 2; 0] 0 0).
  reflexivity.
Defined.

(** ** Undefined candidates *)




(** ** Shapes *)

Lemma zipWith_repeat_r {A B C : Type} (f : A -> B -> C) (y : B) (l : list A) :
  zipWith f l (repeat y (length l)) = map (fun x => f x y) l.
Proof.
  induction l as [| a l IH]; simpl; [reflexivity | now rewrite IH].
Qed.

(** A length-1 second operand is stretched along the first. *)
Lemma ufunc2_stretch_r {A B C : Type} (f : A -> B -> C) (l : list A) (y : B) :
  ufunc2 f (Array1 l) (Array1 [y])
  = ufunc2 f (Array1 l) (Array1 (repeat y (length l))).
Proof.
  unfold ufunc2; rewrite repeat_length, Nat.eqb_refl, zipWith_repeat_r.
  destruct l as [| a [| b l]]; reflexivity.
Qed.

Lemma ufunc2_mismatch {A B C : Type} (f : A -> B -> C)
  (l1 : list A) (l2 : list B) :
  length l1 <> length l2 -> length l1 <> 1%nat -> length l2 <> 1%nat ->
  ufunc2 f (Array1 l1) (Array1 l2) = Raise BroadcastError.
Proof.
  intros Hne H1 H2; unfold ufunc2.
  destruct (Nat.eqb_spec (length l1) (length l2)) as [He | _];
    [contradiction |].
  destruct l1 as [| a [| a' l1]], l2 as [| b [| b' l2]]; simpl in *;
    try reflexivity; contradiction.
Qed.

Lemma map_repeat {A B : Type} (f : A -> B) (a : A) (n : nat) :
  map f (repeat a n) = repeat (f a) n.
Proof. induction n as [| n IH]; simpl; [reflexivity | now rewrite IH]. Qed.

(** C6, as stated, fails: a batch of one [ra] against a batch of two
    [dec] is accepted, and answered as if the [ra] had been given twice. *)
Lemma unequal_lengths_accepted :
  length [0] <> length [0; 0]
  /\ _nativeLonLatFromRaDec (Array1 [0]) (Array1 [0; 0]) 0 0
     = _nativeLonLatFromRaDec (Array1 [0; 0]) (Array1 [0; 0]) 0 0
  /\ exists lons lats,
       _nativeLonLatFromRaDec (Array1 [0]) (Array1 [0; 0]) 0 0
       = Ok (Array1 lons, Array1 lats).
Proof.
  split; [simpl; lia |].
  assert (He : _nativeLonLatFromRaDec (Array1 [0]) (Array1 [0; 0]) 0 0
               = _nativeLonLatFromRaDec (Array1 [0; 0]) (Array1 [0; 0]) 0 0)
    by reflexivity.
  split; [exact He |].
  rewrite He; unfold _nativeLonLatFromRaDec.
  rewrite forward_array by reflexivity.
  eexists; eexists; reflexivity.
Qed.

(** With a scalar pointing: equal lengths give arrays of that length, a
    batch of one [ra] (or [lon]) is stretched along the other batch, and
    lengths that differ, neither being 1, raise the broadcasting error. *)
Lemma scalar_pointing_shapes (first second : list R)
  (raPointing decPointing : R) :
  (length first = length second ->
   exists out1 out2 out1' out2',
     _nativeLonLatFromRaDec (Array1 first) (Array1 second)
       raPointing decPointing = Ok (Array1 out1, Array1 out2)
     /\ length out1 = length first /\ length out2 = length first
     /\ _raDecFromNativeLonLat (Array1 first) (Array1 second)
          raPointing decPointing = Ok (Array1 out1', Array1 out2')
     /\ length out1' = length first /\ length out2' = length first)
  /\ (forall a : R,
         first = [a] ->
         _nativeLonLatFromRaDec (Array1 first) (Array1 second)
           raPointing decPointing
         = _nativeLonLatFromRaDec (Array1 (repeat a (length second)))
             (Array1 second) raPointing decPointing
         /\ _raDecFromNativeLonLat (Array1 first) (Array1 second)
              raPointing decPointing
            = _raDecFromNativeLonLat (Array1 (repeat a (length second)))
                (Array1 second) raPointing decPointing).
Proof.
  split.
  - intros Hlen.
    unfold _nativeLonLatFromRaDec, _raDecFromNativeLonLat.
    rewrite forward_array, inverse_array by exact Hlen.
    do 4 eexists.
    split; [reflexivity |].
    split; [apply length_zipWith, Hlen |].
    split; [apply length_zipWith, Hlen |].
    split; [reflexivity |].
    split; apply length_zipWith, Hlen.
  - intros a ->.
    unfold _nativeLonLatFromRaDec, _raDecFromNativeLonLat,
      nativeLonLatFromRaDec_with, raDecFromNativeLonLat_with.
    simpl ufunc1.
    rewrite !map_repeat.
    replace (length second) with (length (map cos second))
      by apply length_map.
    rewrite <- !ufunc2_stretch_r.
    replace (length (map cos second))
      with (length (map (Rmult (-1)) (map cos second)))
      by apply length_map.
    rewrite <- !ufunc2_stretch_r.
    split; reflexivity.
Qed.

(** A length-1 first operand is stretched along the second. *)
Lemma ufunc2_stretch_l {A B C : Type} (f : A -> B -> C) (x : A) (l : list B) :
  ufunc2 f (Array1 [x]) (Array1 l) = Ok (Array1 (map (f x) l)).
Proof.
  unfold ufunc2.
  destruct (Nat.eqb_spec (length [x]) (length l)) as [He | _];
    [| reflexivity].
  destruct l as [| b [| b' l]]; simpl in He; try discriminate.
  reflexivity.
Qed.

(** C6, amended.  Neither transform validates its arguments; every error
    is numpy's own, raised by the computation.
    - With a scalar pointing the transforms are [_nativeLonLatFromRaDec]
      and [_raDecFromNativeLonLat] as modelled above.
    - Two batches whose lengths differ, neither being 1, raise the
      broadcasting error of the first product [x = -cos(dec)*sin(ra)],
      whatever the pointing.
    - A [dec] (or [lat]) batch of length 1 against an [ra] (or [lon]) batch
      of another length raises too: [numpy.array([x, y, z])] is ragged, or
      the rotation matrix is.
    - A pointing that is an array always raises: on scalars and on
      equal-length batches [numpy.array] refuses the rotation matrix.
    - An [ra] (or [lon]) batch of length 1 with a scalar pointing is the
      exception: it is stretched along the other batch and answered as the
      repeated value.
    - Two batches of equal length with a scalar pointing give two arrays of
      that length. *)
Theorem shapes_and_pointing :
  (forall (first second : ndarray R) (raPointing decPointing : R),
      nativeLonLatFromRaDec_anyPointing first second
        (Scalar raPointing) (Scalar decPointing)
      = _nativeLonLatFromRaDec first second raPointing decPointing
      /\ raDecFromNativeLonLat_anyPointing first second
           (Scalar raPointing) (Scalar decPointing)
         = _raDecFromNativeLonLat first second raPointing decPointing)
  /\ (forall (first second : list R) (raPointing decPointing : ndarray R),
         length first <> length second ->
         length first <> 1%nat -> length second <> 1%nat ->
         nativeLonLatFromRaDec_anyPointing (Array1 first) (Array1 second)
           raPointing decPointing = Raise BroadcastError
         /\ raDecFromNativeLonLat_anyPointing (Array1 first) (Array1 second)
              raPointing decPointing = Raise BroadcastError)
  /\ (forall (first : list R) (b : R) (raPointing decPointing : ndarray R),
         length first <> 1%nat ->
         nativeLonLatFromRaDec_anyPointing (Array1 first) (Array1 [b])
           raPointing decPointing = Raise InhomogeneousShape
         /\ raDecFromNativeLonLat_anyPointing (Array1 first) (Array1 [b])
              raPointing decPointing = Raise InhomogeneousShape)
  /\ (forall first second raPointing decPointing : ndarray R,
         is_array raPointing || is_array decPointing = true ->
         exists e,
           nativeLonLatFromRaDec_anyPointing first second
             raPointing decPointing = Raise e
           /\ raDecFromNativeLonLat_anyPointing first second
                raPointing decPointing = Raise e)
  /\ (forall (a b : R) (first second : list R)
             (raPointing decPointing : ndarray R),
         is_array raPointing || is_array decPointing = true ->
         length first = length second ->
         nativeLonLatFromRaDec_anyPointing (Scalar a) (Scalar b)
           raPointing decPointing = Raise InhomogeneousShape
         /\ raDecFromNativeLonLat_anyPointing (Scalar a) (Scalar b)
              raPointing decPointing = Raise InhomogeneousShape
         /\ nativeLonLatFromRaDec_anyPointing (Array1 first) (Array1 second)
              raPointing decPointing = Raise InhomogeneousShape
         /\ raDecFromNativeLonLat_anyPointing (Array1 first) (Array1 second)
              raPointing decPointing = Raise InhomogeneousShape)
  /\ (forall (a : R) (second : list R) (raPointing decPointing : R),
         nativeLonLatFromRaDec_anyPointing (Array1 [a]) (Array1 second)
           (Scalar raPointing) (Scalar decPointing)
         = nativeLonLatFromRaDec_anyPointing
             (Array1 (repeat a (length second))) (Array1 second)
             (Scalar raPointing) (Scalar decPointing)
         /\ raDecFromNativeLonLat_anyPointing (Array1 [a]) (Array1 second)
              (Scalar raPointing) (Scalar decPointing)
            = raDecFromNativeLonLat_anyPointing
                (Array1 (repeat a (length second))) (Array1 second)
                (Scalar raPointing) (Scalar decPointing))
  /\ (forall (first second : list R) (raPointing decPointing : R),
         length first = length second ->
         exists out1 out2 out1' out2',
           nativeLonLatFromRaDec_anyPointing (Array1 first) (Array1 second)
             (Scalar raPointing) (Scalar decPointing)
           = Ok (Array1 out1, Array1 out2)
           /\ length out1 = length first /\ length out2 = length first
           /\ raDecFromNativeLonLat_anyPointing (Array1 first) (Array1 second)
                (Scalar raPointing) (Scalar decPointing)
              = Ok (Array1 out1', Array1 out2')
           /\ length out1' = length first /\ length out2' = length first).
Proof.
  assert (Hscalar : forall (first second : ndarray R) (rp dp : R),
             nativeLonLatFromRaDec_anyPointing first second
               (Scalar rp) (Scalar dp)
             = _nativeLonLatFromRaDec first second rp dp
             /\ raDecFromNativeLonLat_anyPointing first second
                  (Scalar rp) (Scalar dp)
                = _raDecFromNativeLonLat first second rp dp).
  { intros first second rp dp; split; reflexivity. }
  split; [exact Hscalar |].
  split; [| split; [| split; [| split; [| split]]]].
  - intros first second rp dp Hne H1 H2.
    unfold nativeLonLatFromRaDec_anyPointing,
      raDecFromNativeLonLat_anyPointing.
    simpl ufunc1.
    rewrite !ufunc2_mismatch by (rewrite !length_map; congruence).
    split; reflexivity.
  - intros first b rp dp H1.
    unfold nativeLonLatFromRaDec_anyPointing,
      raDecFromNativeLonLat_anyPointing.
    cbn [ufunc1 map].
    rewrite !ufunc2_stretch_l; cbn [bind].
    assert (Hxyz : forall xs ys : list R,
               length xs = length first -> length ys = length first ->
               np_array3 (Array1 xs) (Array1 ys) (Array1 [sin b])
               = Raise InhomogeneousShape).
    { intros xs ys Hx Hy; unfold np_array3.
      rewrite Hx, Hy, Nat.eqb_refl; cbn [andb length].
      destruct (Nat.eqb_spec (length first) 1) as [He | _];
        [contradiction | reflexivity]. }
    rewrite !Hxyz by (rewrite !length_map; reflexivity).
    destruct rp as [rp | rps], dp as [dp | dps]; split; reflexivity.
  - intros first second rp dp Harr.
    unfold nativeLonLatFromRaDec_anyPointing,
      raDecFromNativeLonLat_anyPointing.
    destruct (ufunc2 Rmult (ufunc1 (Rmult (-1)) (ufunc1 cos second))
                (ufunc1 sin first)) as [x | e];
      [| exists e; split; reflexivity].
    destruct (ufunc2 Rmult (ufunc1 cos second) (ufunc1 cos first))
      as [y | e]; [| exists e; split; reflexivity].
    exists InhomogeneousShape; cbn [bind].
    destruct rp as [rp | rps], dp as [dp | dps];
      try discriminate; split; reflexivity.
  - intros a b first second rp dp Harr Hlen.
    unfold nativeLonLatFromRaDec_anyPointing,
      raDecFromNativeLonLat_anyPointing.
    cbn [ufunc1 ufunc2 bind].
    rewrite !length_map, Hlen, Nat.eqb_refl; cbn [bind].
    destruct rp as [rp | rps], dp as [dp | dps];
      try discriminate; repeat split; reflexivity.
  - intros a second rp dp.
    rewrite !(proj1 (Hscalar _ _ _ _)), !(proj2 (Hscalar _ _ _ _)).
    exact (proj2 (scalar_pointing_shapes [a] second rp dp) a eq_refl).
  - intros first second rp dp Hlen.
    rewrite (proj1 (Hscalar _ _ _ _)), (proj2 (Hscalar _ _ _ _)).
    exact (proj1 (scalar_pointing_shapes first second rp dp) Hlen).
Qed.

(** Three shapes that raise: lengths 3 and 2 under an array pointing, a
    [dec] of length 1 against three [ra], and two scalars under an array
    pointing. *)
Lemma shapes_and_pointing_witness :
  (nativeLonLatFromRaDec_anyPointing (Array1 [0; 1; 2]) (Array1 [0; 1])
     (Array1 [0; 0]) (Scalar 0) = Raise BroadcastError
   /\ raDecFromNativeLonLat_anyPointing (Array1 [0; 1; 2]) (Array1 [0; 1])
        (Array1 [0; 0]) (Scalar 0) = Raise BroadcastError)
  /\ (nativeLonLatFromRaDec_anyPointing (Array1 [0; 1; 2]) (Array1 [0])
        (Scalar 0) (Scalar 0) = Raise InhomogeneousShape
      /\ raDecFromNativeLonLat_anyPointing (Array1 [0; 1; 2]) (Array1 [0])
           (Scalar 0) (Scalar 0) = Raise InhomogeneousShape)
  /\ (exists e,
         nativeLonLatFromRaDec_anyPointing (Scalar 0) (Scalar 0)
           (Array1 [0; 1]) (Scalar 0) = Raise e
         /\ raDecFromNativeLonLat_anyPointing (Scalar 0) (Scalar 0)
              (Array1 [0; 1]) (Scalar 0) = Raise e).
Proof.
  split; [| split].
  - apply (proj1 (proj2 shapes_and_pointing) [0; 1; 2] [0; 1]
             (Array1 [0; 0]) (Scalar 0)); simpl; lia.
  - apply (proj1 (proj2 (proj2 shapes_and_pointing)) [0; 1; 2] 0
             (Scalar 0) (Scalar 0)); simpl; lia.
  - apply (proj1 (proj2 (proj2 (proj2 shapes_and_pointing)))
             (Scalar 0) (Scalar 0) (Array1 [0; 1]) (Scalar 0)).
    reflexivity.
Defined.

(** ** The linear solve on the block-diagonal system *)

Lemma gauss1 (a b : R) : a <> 0 -> gauss 1 [[a; b]] = Some [b / a].
Proof.
  intros Ha; simpl.
  destruct (Req_dec_T a 0); [contradiction | reflexivity].
Qed.

Lemma gauss2_symm (a c d e f : R) :
  a * d - c * c <> 0 ->
  gauss 2 [[a; c; e]; [c; d; f]]
  = Some [(d * e - c * f) / (a * d - c * c);
          (a * f - c * e) / (a * d - c * c)].
Proof.
  intros HD.
  destruct (Req_dec_T a 0) as [Ha | Ha].
  - subst a.
    assert (Hc : c <> 0) by (intros ->; apply HD; ring).
    simpl.
    destruct (Req_dec_T 0 0) as [_ | Hn]; [| now elim Hn].
    destruct (Req_dec_T c 0); [contradiction |].
    simpl.
    destruct (Req_dec_T (c - 0 / c * d) 0) as [Hz | _].
    { exfalso; apply Hc; rewrite <- Hz; field; exact Hc. }
    simpl; f_equal; f_equal; [| f_equal]; field; auto.
  - simpl.
    destruct (Req_dec_T a 0); [contradiction |].
    simpl.
    destruct (Req_dec_T (d - c / a * c) 0) as [Hz | Hnz].
    { exfalso; apply HD.
      replace (a * d - c * c) with (a * (d - c / a * c)) by (field; exact Ha).
      rewrite Hz; ring. }
    simpl; f_equal; f_equal; [| f_equal]; field; auto.
Qed.

Lemma gauss2_singular (a c d e f : R) :
  a * d - c * c = 0 -> gauss 2 [[a; c; e]; [c; d; f]] = None.
Proof.
  intros HD.
  destruct (Req_dec_T a 0) as [Ha | Ha].
  - subst a.
    assert (Hc : c = 0) by nra.
    subst c; simpl.
    destruct (Req_dec_T 0 0) as [_ | Hn]; [reflexivity | now elim Hn].
  - simpl.
    destruct (Req_dec_T a 0); [contradiction |].
    simpl.
    destruct (Req_dec_T (d - c / a * c) 0) as [_ | Hnz]; [reflexivity |].
    exfalso; apply Hnz.
    replace (d - c / a * c) with ((a * d - c * c) / a) by (field; exact Ha).
    rewrite HD; field; exact Ha.
Qed.

Lemma gauss_S (n : nat) (rows : list (list R)) :
  gauss (S n) rows
  = match find_pivot rows with
    | None => None
    | Some (p, others) =>
        match gauss n (map (eliminate p) others) with
        | None => None
        | Some xs => Some (row_residual (tl p) xs / hd 0 p :: xs)
        end
    end.
Proof. reflexivity. Qed.

Lemma find_pivot_head (a : R) (r : list R) (rest : list (list R)) :
  a <> 0 -> find_pivot ((a :: r) :: rest) = Some (a :: r, rest).
Proof.
  intros Ha; simpl; destruct (Req_dec_T a 0); [contradiction | reflexivity].
Qed.

Lemma find_pivot_skip (r : list R) (rest : list (list R)) :
  find_pivot ((0 :: r) :: rest)
  = match find_pivot rest with
    | Some (p, others) => Some (p, (0 :: r) :: others)
    | None => None
    end.
Proof.
  simpl; destruct (Req_dec_T 0 0) as [_ | Hn]; [reflexivity | now elim Hn].
Qed.

Ltac rows_eq :=
  repeat (apply (f_equal2 (@cons (list R))) || apply (f_equal2 (@cons R)));
  try reflexivity.

Ltac clean_rows n clean :=
  match goal with
  | |- context [gauss n ?rows] =>
      replace rows with clean by (rows_eq; field; assumption)
  end.

Lemma gauss3_lead (p q a c d e f : R) :
  p <> 0 ->
  gauss 3 [[p; 0; 0; q]; [0; a; c; e]; [0; c; d; f]]
  = match gauss 2 [[a; c; e]; [c; d; f]] with
    | Some [x; y] => Some [q / p; x; y]
    | _ => None
    end.
Proof.
  intros Hp.
  rewrite gauss_S, find_pivot_head by exact Hp.
  cbn [map eliminate zipWith].
  clean_rows 2%nat [[a; c; e]; [c; d; f]].
  destruct (Req_dec_T (a * d - c * c) 0) as [HD | HD].
  - now rewrite gauss2_singular.
  - rewrite gauss2_symm by exact HD.
    cbn [tl hd row_residual].
    do 2 f_equal; field; auto.
Qed.

Lemma gauss3_zero_column (q a c d e f : R) :
  gauss 3 [[0; 0; 0; q]; [0; a; c; e]; [0; c; d; f]] = None.
Proof.
  rewrite gauss_S, !find_pivot_skip; reflexivity.
Qed.

(** The augmented system of [aMatrix] and [bVector]. *)
Lemma solve_block_regular (xsq offDiag ysq b0 b1 b2 b3 : R) :
  xsq * ysq - offDiag * offDiag <> 0 ->
  linalg_solve [ [xsq; offDiag; 0; 0]; [offDiag; ysq; 0; 0];
                 [0; 0; xsq; offDiag]; [0; 0; offDiag; ysq] ]
               [b0; b1; b2; b3]
  = Ok [ (ysq * b0 - offDiag * b1) / (xsq * ysq - offDiag * offDiag);
         (xsq * b1 - offDiag * b0) / (xsq * ysq - offDiag * offDiag);
         (ysq * b2 - offDiag * b3) / (xsq * ysq - offDiag * offDiag);
         (xsq * b3 - offDiag * b2) / (xsq * ysq - offDiag * offDiag) ].
Proof.
  intros HD.
  unfold linalg_solve; cbn [length zipWith app].
  destruct (Req_dec_T xsq 0) as [Hx | Hx].
  - subst xsq.
    assert (Hc : offDiag <> 0) by (intros ->; apply HD; ring).
    rewrite gauss_S, find_pivot_skip, find_pivot_head by exact Hc.
    cbn [map eliminate zipWith].
    clean_rows 3%nat [[offDiag; 0; 0; b0]; [0; 0; offDiag; b2];
                      [0; offDiag; ysq; b3]].
    rewrite gauss3_lead, gauss2_symm by assumption.
    cbn [tl hd row_residual].
    f_equal; repeat (apply (f_equal2 (@cons R)); [field; auto |]);
      reflexivity.
  - rewrite gauss_S, find_pivot_head by exact Hx.
    cbn [map eliminate zipWith].
    clean_rows 3%nat
      [[(xsq * ysq - offDiag * offDiag) / xsq; 0; 0;
        (xsq * b1 - offDiag * b0) / xsq];
       [0; xsq; offDiag; b2]; [0; offDiag; ysq; b3]].
    assert (Hp : (xsq * ysq - offDiag * offDiag) / xsq <> 0).
    { intros Hz; apply HD.
      replace (xsq * ysq - offDiag * offDiag)
        with ((xsq * ysq - offDiag * offDiag) / xsq * xsq)
        by (field; exact Hx).
      rewrite Hz; ring. }
    rewrite gauss3_lead, gauss2_symm by assumption.
    cbn [tl hd row_residual].
    f_equal; repeat (apply (f_equal2 (@cons R)); [field; auto |]);
      reflexivity.
Qed.

Lemma solve_block_singular (xsq offDiag ysq b0 b1 b2 b3 : R) :
  xsq * ysq - offDiag * offDiag = 0 ->
  linalg_solve [ [xsq; offDiag; 0; 0]; [offDiag; ysq; 0; 0];
                 [0; 0; xsq; offDiag]; [0; 0; offDiag; ysq] ]
               [b0; b1; b2; b3]
  = Raise LinAlgError.
Proof.
  intros HD.
  unfold linalg_solve; cbn [length zipWith app].
  destruct (Req_dec_T xsq 0) as [Hx | Hx].
  - subst xsq.
    assert (Hc : offDiag = 0) by nra.
    subst offDiag.
    rewrite gauss_S, !find_pivot_skip; reflexivity.
  - rewrite gauss_S, find_pivot_head by exact Hx.
    cbn [map eliminate zipWith].
    assert (Hz : ysq - offDiag / xsq * offDiag = 0).
    { replace (ysq - offDiag / xsq * offDiag)
        with ((xsq * ysq - offDiag * offDiag) / xsq) by (field; exact Hx).
      rewrite HD; field; exact Hx. }
    rewrite Hz.
    clean_rows 3%nat
      [[0; 0; 0; (xsq * b1 - offDiag * b0) / xsq];
       [0; xsq; offDiag; b2]; [0; offDiag; ysq; b3]].
    now rewrite gauss3_zero_column.
Qed.

(** ** Sums over the samples *)

Lemma dot_sum_cons (a b : R) (l1 l2 : list R) :
  dot_sum (a :: l1) (b :: l2) = a * b + dot_sum l1 l2.
Proof. reflexivity. Qed.

Lemma dot_sum_comm (l1 : list R) :
  forall l2, dot_sum l1 l2 = dot_sum l2 l1.
Proof.
  induction l1 as [| a l1 IH]; intros [| b l2]; try reflexivity.
  rewrite !dot_sum_cons, IH; ring.
Qed.

Lemma sum_squares (l : list R) :
  fold_right Rplus 0 (map (fun d => d ^ 2) l) = dot_sum l l.
Proof.
  induction l as [| a l IH]; [reflexivity |].
  rewrite dot_sum_cons; cbn [fold_right map]; rewrite IH; ring.
Qed.

Lemma dot_sum_zero_l (l1 : list R) :
  Forall (fun d => d = 0) l1 -> forall l2, dot_sum l1 l2 = 0.
Proof.
  induction 1 as [| a l1 Ha _ IH]; intros [| b l2]; try reflexivity.
  rewrite dot_sum_cons, IH, Ha; ring.
Qed.

Lemma quad_form_nonneg (h1 h2 : R) (dxs : list R) :
  forall dys,
    length dxs = length dys ->
    0 <= h1 * h1 * dot_sum dxs dxs + 2 * h1 * h2 * dot_sum dxs dys
         + h2 * h2 * dot_sum dys dys.
Proof.
  induction dxs as [| dx dxs IH]; intros [| dy dys] Hlen; simpl in Hlen;
    try discriminate.
  - unfold dot_sum; simpl; lra.
  - rewrite !dot_sum_cons.
    assert (Hlen' : length dxs = length dys) by lia.
    specialize (IH dys Hlen').
    pose proof (Rle_0_sqr (h1 * dx + h2 * dy)) as Hsq; unfold Rsqr in Hsq.
    nra.
Qed.

Lemma sq_residuals_expand (a b : R) (dxs : list R) :
  forall dys ws,
    length dxs = length dys -> length dxs = length ws ->
    sq_residuals a b dxs dys ws
    = dot_sum ws ws - 2 * a * dot_sum dxs ws - 2 * b * dot_sum dys ws
      + a * a * dot_sum dxs dxs + 2 * a * b * dot_sum dxs dys
      + b * b * dot_sum dys dys.
Proof.
  induction dxs as [| dx dxs IH]; intros [| dy dys] [| w ws] H1 H2;
    simpl in H1, H2; try discriminate.
  - unfold dot_sum; simpl; ring.
  - cbn [sq_residuals]; rewrite !dot_sum_cons.
    rewrite IH by lia; ring.
Qed.

(** The solution of the normal equations minimises the squared residuals. *)
Lemma normal_equations_minimise (c1 c2 a b : R) (dxs dys ws : list R) :
  length dxs = length dys -> length dxs = length ws ->
  dot_sum dxs dxs * c1 + dot_sum dxs dys * c2 = dot_sum dxs ws ->
  dot_sum dxs dys * c1 + dot_sum dys dys * c2 = dot_sum dys ws ->
  sq_residuals c1 c2 dxs dys ws <= sq_residuals a b dxs dys ws.
Proof.
  intros H1 H2 Hn1 Hn2.
  rewrite !sq_residuals_expand by assumption.
  pose proof (quad_form_nonneg (a - c1) (b - c2) dxs dys H1) as Hq.
  rewrite <- Hn1, <- Hn2.
  nra.
Qed.

Lemma cd_coefficients_system (xPixList yPixList : list R) (crPix1 crPix2 : R)
  (uList vList : list R) :
  length xPixList = length yPixList ->
  length xPixList = length uList ->
  length xPixList = length vList ->
  let dxs := map (fun x => x - crPix1) xPixList in
  let dys := map (fun y => y - crPix2) yPixList in
  cd_coefficients xPixList yPixList crPix1 crPix2 uList vList
  = linalg_solve
      [ [dot_sum dxs dxs; dot_sum dxs dys; 0; 0];
        [dot_sum dxs dys; dot_sum dys dys; 0; 0];
        [0; 0; dot_sum dxs dxs; dot_sum dxs dys];
        [0; 0; dot_sum dxs dys; dot_sum dys dys] ]
      [dot_sum dxs uList; dot_sum dys uList;
       dot_sum dxs vList; dot_sum dys vList].
Proof.
  intros Hy Hu Hv dxs dys.
  unfold cd_coefficients; cbn [ufunc1 ufunc2].
  fold dxs dys.
  assert (Lx : length dxs = length xPixList) by apply length_map.
  assert (Ly : length dys = length xPixList)
    by (unfold dys; rewrite length_map; lia).
  replace (Nat.eqb (length dxs) (length uList)) with true
    by (symmetry; apply Nat.eqb_eq; lia).
  replace (Nat.eqb (length dys) (length uList)) with true
    by (symmetry; apply Nat.eqb_eq; lia).
  replace (Nat.eqb (length dxs) (length vList)) with true
    by (symmetry; apply Nat.eqb_eq; lia).
  replace (Nat.eqb (length dys) (length vList)) with true
    by (symmetry; apply Nat.eqb_eq; lia).
  replace (Nat.eqb (length dys) (length dxs)) with true
    by (symmetry; apply Nat.eqb_eq; lia).
  cbn [bind np_sum].
  rewrite !sum_squares.
  fold (dot_sum dxs uList) (dot_sum dys uList) (dot_sum dxs vList)
    (dot_sum dys vList) (dot_sum dys dxs).
  rewrite (dot_sum_comm dys dxs).
  reflexivity.
Qed.

Lemma solve_2x2 (a c d e f : R) :
  a * d - c * c <> 0 ->
  linalg_solve [[a; c]; [c; d]] [e; f]
  = Ok [(d * e - c * f) / (a * d - c * c);
        (a * f - c * e) / (a * d - c * c)].
Proof.
  intros HD; unfold linalg_solve; cbn [length zipWith app].
  now rewrite gauss2_symm.
Qed.

(** C3.  For samples with a non-singular normal matrix the solve returns
    four coefficients; the 4x4 system is the block-diagonal one built from
    [sum dx^2], [sum dy^2], [sum dx*dy] with right-hand side
    [(sum dx*u, sum dy*u, sum dx*v, sum dy*v)]; its solution is the solution
    of the two 2x2 normal-equation systems; and [(cd11, cd12)] and
    [(cd21, cd22)] minimise the squared residuals of [u] and of [v]. *)
Theorem cd_least_squares (xPixList yPixList : list R) (crPix1 crPix2 : R)
  (uList vList : list R) :
  length xPixList = length yPixList ->
  length xPixList = length uList ->
  length xPixList = length vList ->
  let dxs := map (fun x => x - crPix1) xPixList in
  let dys := map (fun y => y - crPix2) yPixList in
  let xsq := dot_sum dxs dxs in
  let ysq := dot_sum dys dys in
  let offDiag := dot_sum dxs dys in
  xsq * ysq - offDiag * offDiag <> 0 ->
  exists cd11 cd12 cd21 cd22,
    cd_coefficients xPixList yPixList crPix1 crPix2 uList vList
    = Ok [cd11; cd12; cd21; cd22]
    /\ cd_coefficients xPixList yPixList crPix1 crPix2 uList vList
       = linalg_solve [ [xsq; offDiag; 0; 0]; [offDiag; ysq; 0; 0];
                        [0; 0; xsq; offDiag]; [0; 0; offDiag; ysq] ]
                      [dot_sum dxs uList; dot_sum dys uList;
                       dot_sum dxs vList; dot_sum dys vList]
    /\ linalg_solve [[xsq; offDiag]; [offDiag; ysq]]
                    [dot_sum dxs uList; dot_sum dys uList]
       = Ok [cd11; cd12]
    /\ linalg_solve [[xsq; offDiag]; [offDiag; ysq]]
                    [dot_sum dxs vList; dot_sum dys vList]
       = Ok [cd21; cd22]
    /\ xsq * cd11 + offDiag * cd12 = dot_sum dxs uList
    /\ offDiag * cd11 + ysq * cd12 = dot_sum dys uList
    /\ xsq * cd21 + offDiag * cd22 = dot_sum dxs vList
    /\ offDiag * cd21 + ysq * cd22 = dot_sum dys vList
    /\ (forall a b,
           sq_residuals cd11 cd12 dxs dys uList
           <= sq_residuals a b dxs dys uList)
    /\ (forall a b,
           sq_residuals cd21 cd22 dxs dys vList
           <= sq_residuals a b dxs dys vList).
Proof.
  intros Hy Hu Hv dxs dys xsq ysq offDiag HD.
  pose proof (cd_coefficients_system xPixList yPixList crPix1 crPix2
                uList vList Hy Hu Hv) as Hsys.
  cbv zeta in Hsys; fold dxs dys in Hsys; fold xsq ysq offDiag in Hsys.
  assert (Lxy : length dxs = length dys)
    by (unfold dxs, dys; rewrite !length_map; exact Hy).
  assert (Lxu : length dxs = length uList)
    by (unfold dxs; rewrite length_map; exact Hu).
  assert (Lxv : length dxs = length vList)
    by (unfold dxs; rewrite length_map; exact Hv).
  set (bu0 := dot_sum dxs uList) in *; set (bu1 := dot_sum dys uList) in *.
  set (bv0 := dot_sum dxs vList) in *; set (bv1 := dot_sum dys vList) in *.
  assert (N1 : xsq * ((ysq * bu0 - offDiag * bu1) / (xsq * ysq - offDiag * offDiag))
               + offDiag * ((xsq * bu1 - offDiag * bu0) / (xsq * ysq - offDiag * offDiag))
               = bu0) by (field; exact HD).
  assert (N2 : offDiag * ((ysq * bu0 - offDiag * bu1) / (xsq * ysq - offDiag * offDiag))
               + ysq * ((xsq * bu1 - offDiag * bu0) / (xsq * ysq - offDiag * offDiag))
               = bu1) by (field; exact HD).
  assert (N3 : xsq * ((ysq * bv0 - offDiag * bv1) / (xsq * ysq - offDiag * offDiag))
               + offDiag * ((xsq * bv1 - offDiag * bv0) / (xsq * ysq - offDiag * offDiag))
               = bv0) by (field; exact HD).
  assert (N4 : offDiag * ((ysq * bv0 - offDiag * bv1) / (xsq * ysq - offDiag * offDiag))
               + ysq * ((xsq * bv1 - offDiag * bv0) / (xsq * ysq - offDiag * offDiag))
               = bv1) by (field; exact HD).
  do 4 eexists.
  split; [rewrite Hsys; apply solve_block_regular, HD |].
  split; [exact Hsys |].
  split; [apply solve_2x2, HD |].
  split; [apply solve_2x2, HD |].
  split; [exact N1 |].
  split; [exact N2 |].
  split; [exact N3 |].
  split; [exact N4 |].
  split; intros a b; apply normal_equations_minimise; assumption.
Qed.

Lemma cd_least_squares_witness :
  exists cd11 cd12 cd21 cd22,
    cd_coefficients [1; 0; 0] [0; 1; 0] 0 0 [2; 3; 0] [5; 7; 0]
    = Ok [cd11; cd12; cd21; cd22].
Proof.
  destruct (cd_least_squares [1; 0; 0] [0; 1; 0] 0 0 [2; 3; 0] [5; 7; 0]
              eq_refl eq_refl eq_refl)
    as (cd11 & cd12 & cd21 & cd22 & H & _).
  - unfold dot_sum; simpl; lra.
  - exists cd11, cd12, cd21, cd22; exact H.
Defined.

(** C5.  When every [dx_i] is zero, or every [dy_i] is zero, the solve
    raises [LinAlgError] and returns no coefficients. *)
Theorem degenerate_offsets_raise (xPixList yPixList : list R)
  (crPix1 crPix2 : R) (uList vList : list R) :
  length xPixList = length yPixList ->
  length xPixList = length uList ->
  length xPixList = length vList ->
  Forall (fun x => x - crPix1 = 0) xPixList
  \/ Forall (fun y => y - crPix2 = 0) yPixList ->
  cd_coefficients xPixList yPixList crPix1 crPix2 uList vList
  = Raise LinAlgError.
Proof.
  intros Hy Hu Hv Hdeg.
  rewrite cd_coefficients_system by assumption; cbv zeta.
  apply solve_block_singular.
  destruct Hdeg as [Hx | Hy0].
  - assert (Hz : Forall (fun d => d = 0) (map (fun x => x - crPix1) xPixList))
      by (apply Forall_map; exact Hx).
    rewrite !(dot_sum_zero_l _ Hz); ring.
  - assert (Hz : Forall (fun d => d = 0) (map (fun y => y - crPix2) yPixList))
      by (apply Forall_map; exact Hy0).
    rewrite (dot_sum_comm (map (fun x => x - crPix1) xPixList)
               (map (fun y => y - crPix2) yPixList)).
    rewrite !(dot_sum_zero_l _ Hz); ring.
Qed.

Lemma degenerate_offsets_raise_witness :
  cd_coefficients [1; 1; 1] [0; 1; 2] 1 1 [2; 3; 4] [5; 7; 9]
  = Raise LinAlgError.
Proof.
  apply (degenerate_offsets_raise [1; 1; 1] [0; 1; 2] 1 1 [2; 3; 4] [5; 7; 9]);
    try reflexivity.
  left; repeat constructor; lra.
Defined.

(** ** The sampling grid *)

Lemma np_arange_count (start stop step : R) (n : Z) :
  step <> 0 ->
  IZR n - 1 < (stop - start) / step <= IZR n ->
  np_arange start stop step
  = Ok (map (fun i => start + INR i * step) (seq 0 (Z.to_nat n))).
Proof.
  intros Hs Hn; unfold np_arange.
  destruct (Req_dec_T step 0); [contradiction |].
  now rewrite (Zceil_eq n).
Qed.

(** Along x the step is half the extent and three pixels are sampled. *)
Lemma x_samples (xTanPixMin xTanPixMax : R) :
  xTanPixMin < xTanPixMax ->
  let dx := 0.5 * (xTanPixMax - xTanPixMin) in
  np_arange xTanPixMin (xTanPixMax + 0.5 * dx) dx
  = Ok [xTanPixMin + INR 0 * dx; xTanPixMin + INR 1 * dx;
        xTanPixMin + INR 2 * dx].
Proof.
  intros Hlt dx.
  rewrite (np_arange_count _ _ _ 3); [reflexivity | unfold dx; lra |].
  replace ((xTanPixMax + 0.5 * dx - xTanPixMin) / dx) with (5 / 2)
    by (unfold dx; replace 0.5 with (/ 2) by lra; field; lra).
  lra.
Qed.

Ltac pairs_eq :=
  repeat (apply (f_equal2 (@cons (R * R)));
          [apply (f_equal2 (@pair R R)); simpl; lra |]);
  try reflexivity.

(** C4 at a box twice as high as wide, [(xMin, xMax, yMin, yMax) =
    (0, 2, 0, 4)], where [dx = 1] and [dy = 2]: the source samples y in
    steps of [dx = 1], so the grid is 3x5; steps of [dy] along y would give
    the 3x3 grid. *)
Theorem grid_on_tall_box :
  sample_grid 0 2 0 4
  = Ok [ (0, 0); (0, 1); (0, 2); (0, 3); (0, 4);
         (1, 0); (1, 1); (1, 2); (1, 3); (1, 4);
         (2, 0); (2, 1); (2, 2); (2, 3); (2, 4) ]
  /\ sample_grid_dx_dy 0 2 0 4
     = Ok [ (0, 0); (0, 2); (0, 4);
            (1, 0); (1, 2); (1, 4);
            (2, 0); (2, 2); (2, 4) ].
Proof.
  split.
  - unfold sample_grid; cbv zeta.
    rewrite (np_arange_count 0 (2 + 0.5 * (0.5 * (2 - 0))) _ 3) by lra.
    rewrite (np_arange_count 0 (4 + 0.5 * (0.5 * (2 - 0))) _ 5) by lra.
    cbn [bind Z.to_nat Pos.to_nat Pos.iter_op Nat.add seq map flat_map app].
    f_equal; pairs_eq.
  - unfold sample_grid_dx_dy; cbv zeta.
    rewrite (np_arange_count 0 (2 + 0.5 * (0.5 * (2 - 0))) _ 3) by lra.
    rewrite (np_arange_count 0 (4 + 0.5 * (0.5 * (4 - 0))) _ 3) by lra.
    cbn [bind Z.to_nat Pos.to_nat Pos.iter_op Nat.add seq map flat_map app].
    f_equal; pairs_eq.
Qed.

(** On a square box the two grids coincide and have nine pixels. *)
Lemma grid_on_square_box (xTanPixMin yTanPixMin side : R) :
  0 < side ->
  sample_grid xTanPixMin (xTanPixMin + side) yTanPixMin (yTanPixMin + side)
  = sample_grid_dx_dy xTanPixMin (xTanPixMin + side)
      yTanPixMin (yTanPixMin + side)
  /\ exists g,
      sample_grid xTanPixMin (xTanPixMin + side)
        yTanPixMin (yTanPixMin + side) = Ok g
      /\ length g = 9%nat.
Proof.
  intros Hs.
  assert (He : 0.5 * (yTanPixMin + side - yTanPixMin)
               = 0.5 * (xTanPixMin + side - xTanPixMin)) by ring.
  split.
  - unfold sample_grid, sample_grid_dx_dy; cbv zeta.
    now rewrite He.
  - unfold sample_grid; cbv zeta.
    rewrite (np_arange_count xTanPixMin _ _ 3).
    + rewrite (np_arange_count yTanPixMin _ _ 3).
      * eexists; split; reflexivity.
      * lra.
      * replace ((yTanPixMin + side
                  + 0.5 * (0.5 * (xTanPixMin + side - xTanPixMin))
                  - yTanPixMin) / (0.5 * (xTanPixMin + side - xTanPixMin)))
          with (5 / 2) by (replace 0.5 with (/ 2) by lra; field; lra).
        lra.
    + lra.
    + replace ((xTanPixMin + side
                + 0.5 * (0.5 * (xTanPixMin + side - xTanPixMin))
                - xTanPixMin) / (0.5 * (xTanPixMin + side - xTanPixMin)))
        with (5 / 2) by (replace 0.5 with (/ 2) by lra; field; lra).
      lra.
Qed.

(* ================================================================= *)
(** * Further properties of the transforms *)

(** ** Ranges of the outputs *)

Lemma lat_of_range (v : vec3) : - (PI / 2) <= lat_of v <= PI / 2.
Proof.
  unfold lat_of, arctan2.
  pose proof (cc_of_nonneg v) as Hc; pose proof PI_RGT_0 as Hpi.
  destruct (Rlt_dec 0 (cc_of v)).
  - pose proof (atan_bound (v_2 v / cc_of v)); lra.
  - destruct (Rlt_dec (cc_of v) 0); [lra |].
    destruct (Rlt_dec 0 (v_2 v)); [lra |].
    destruct (Rlt_dec (v_2 v) 0); lra.
Qed.

Lemma lon_scalar_range (v : vec3) : 0 <= lon_scalar flip v < 2 * PI.
Proof.
  pose proof PI_RGT_0 as Hpi.
  rewrite <- lon_scalar_x_only; unfold lon_scalar.
  destruct (_ra_of v) as [r |] eqn:Hr; [| lra].
  destruct (_ra_of_some v r Hr) as [_ Hacos].
  pose proof (acos_bound (v_1 v / cos (lat_of v))) as Hb; rewrite <- Hacos in Hb.
  unfold _x_of; rewrite Hr.
  unfold flip_x_only, neg_sin, of_nanfloat, abs_gt.
  destruct (gtb (Rabs (- sin r)) tol) eqn:Hg; simpl; [| lra].
  destruct (sign_ne (Fin (- sin r)) (v_0 v)); [| lra].
  apply gtb_true in Hg; rewrite Rabs_Ropp in Hg.
  assert (Hr0 : r <> 0).
  { intros ->; rewrite sin_0, Rabs_R0 in Hg; pose proof tol_pos; lra. }
  lra.
Qed.

Lemma Forall_zipWith {A B C : Type} (P : C -> Prop) (f : A -> B -> C) :
  (forall a b, P (f a b)) ->
  forall l1 l2, Forall P (zipWith f l1 l2).
Proof.
  intros H; induction l1 as [| a l1 IH]; intros [| b l2]; simpl;
    constructor; auto.
Qed.

(** Whatever the arguments, the longitude (or RA) returned lies in
    [[0, 2*pi)] and the latitude (or Dec) in [[-pi/2, pi/2]]: for scalars,
    and for every element of an equal-length batch. *)
Theorem outputs_in_range (a b : R) (la lb : list R)
  (raPointing decPointing : R) :
  (exists lon lat,
      _nativeLonLatFromRaDec (Scalar a) (Scalar b) raPointing decPointing
      = Ok (Scalar lon, Scalar lat)
      /\ 0 <= lon < 2 * PI /\ - (PI / 2) <= lat <= PI / 2)
  /\ (exists ra dec,
         _raDecFromNativeLonLat (Scalar a) (Scalar b) raPointing decPointing
         = Ok (Scalar ra, Scalar dec)
         /\ 0 <= ra < 2 * PI /\ - (PI / 2) <= dec <= PI / 2)
  /\ (length la = length lb ->
      exists lons lats ras decs,
        _nativeLonLatFromRaDec (Array1 la) (Array1 lb) raPointing decPointing
        = Ok (Array1 lons, Array1 lats)
        /\ _raDecFromNativeLonLat (Array1 la) (Array1 lb)
             raPointing decPointing
           = Ok (Array1 ras, Array1 decs)
        /\ Forall (fun lon => 0 <= lon < 2 * PI) lons
        /\ Forall (fun lat => - (PI / 2) <= lat <= PI / 2) lats
        /\ Forall (fun ra => 0 <= ra < 2 * PI) ras
        /\ Forall (fun dec => - (PI / 2) <= dec <= PI / 2) decs).
Proof.
  unfold _nativeLonLatFromRaDec, _raDecFromNativeLonLat.
  split; [| split].
  - do 2 eexists; split; [apply forward_scalar |].
    split; [apply lon_scalar_range | apply lat_of_range].
  - do 2 eexists; split; [apply inverse_scalar |].
    split; [apply lon_scalar_range | apply lat_of_range].
  - intros Hlen.
    rewrite forward_array, inverse_array by exact Hlen.
    do 4 eexists.
    split; [reflexivity |].
    split; [reflexivity |].
    repeat split; apply Forall_zipWith; intros;
      apply lon_scalar_range || apply lat_of_range.
Qed.

Lemma outputs_in_range_witness :
  exists lons lats ras decs,
    _nativeLonLatFromRaDec (Array1 [0; 1]) (Array1 [1; 0]) 0 0
    = Ok (Array1 lons, Array1 lats)
    /\ _raDecFromNativeLonLat (Array1 [0; 1]) (Array1 [1; 0]) 0 0
       = Ok (Array1 ras, Array1 decs)
    /\ Forall (fun lon => 0 <= lon < 2 * PI) lons
    /\ Forall (fun lat => - (PI / 2) <= lat <= PI / 2) lats
    /\ Forall (fun ra => 0 <= ra < 2 * PI) ras
    /\ Forall (fun dec => - (PI / 2) <= dec <= PI / 2) decs.
Proof.
  apply (proj2 (proj2 (outputs_in_range 0 0 [0; 1] [1; 0] 0 0))).
  reflexivity.
Defined.

(** ** The rotated vector in closed form *)

Lemma cos_shift_pointing (dp : R) : cos (dp - 0.5 * PI) = sin dp.
Proof.
  replace (0.5 * PI) with (PI / 2) by lra.
  rewrite cos_minus, cos_PI2, sin_PI2; ring.
Qed.

Lemma sin_shift_pointing (dp : R) : sin (dp - 0.5 * PI) = - cos dp.
Proof.
  replace (0.5 * PI) with (PI / 2) by lra.
  rewrite sin_minus, cos_PI2, sin_PI2; ring.
Qed.

Lemma v2_forward_closed (ra dec rp dp : R) :
  v2_forward ra dec rp dp
  = (- (cos dec * sin (ra - rp)),
     sin dp * (cos dec * cos (ra - rp)) - cos dp * sin dec,
     cos dp * (cos dec * cos (ra - rp)) + sin dp * sin dec).
Proof.
  unfold v2_forward.
  rewrite cos_shift_pointing, sin_shift_pointing.
  replace (-1 * rp) with (- rp) by ring.
  rewrite cos_neg, sin_neg, sin_minus, cos_minus.
  unfold sky_vector, mat_vec, rot_x, rot_z, row_dot, v_0, v_1, v_2; simpl.
  f_equal; [f_equal |]; ring.
Qed.

(** The pointing itself is the native north pole: its native latitude is
    [pi/2], for every pointing.  (Its longitude is undefined there and
    nothing is said about it.) *)
Theorem pointing_is_native_pole (raPointing decPointing : R) :
  exists lon,
    _nativeLonLatFromRaDec (Scalar raPointing) (Scalar decPointing)
      raPointing decPointing
    = Ok (Scalar lon, Scalar (PI / 2)).
Proof.
  unfold _nativeLonLatFromRaDec; rewrite forward_scalar, v2_forward_closed.
  replace (raPointing - raPointing) with 0 by ring.
  rewrite sin_0, cos_0.
  pose proof (cos_sin_unit decPointing) as Hu.
  replace (- (cos decPointing * 0)) with 0 by ring.
  replace (sin decPointing * (cos decPointing * 1)
           - cos decPointing * sin decPointing) with 0 by ring.
  replace (cos decPointing * (cos decPointing * 1)
           + sin decPointing * sin decPointing) with 1 by lra.
  assert (Hcc : cc_of (0, 0, 1) = 0).
  { unfold cc_of, v_0, v_1; simpl.
    replace (0 * 0 + 0 * 0) with 0 by ring; apply sqrt_0. }
  eexists; do 2 f_equal.
  unfold lat_of; rewrite Hcc; unfold v_2; simpl.
  rewrite arctan2_zero_pos by lra.
  reflexivity.
Qed.

(** The native latitude is the complement of the angular distance to the
    pointing: [sin(lat) = sin(dec) sin(decPointing)
    + cos(dec) cos(decPointing) cos(ra - raPointing)]. *)
Theorem native_latitude_formula (ra dec raPointing decPointing : R) :
  exists lon lat,
    _nativeLonLatFromRaDec (Scalar ra) (Scalar dec) raPointing decPointing
    = Ok (Scalar lon, Scalar lat)
    /\ sin lat = sin dec * sin decPointing
                 + cos dec * cos decPointing * cos (ra - raPointing).
Proof.
  do 2 eexists; split; [apply forward_scalar |].
  rewrite sin_lat_unit by apply unit_v2_forward.
  rewrite v2_forward_closed; unfold v_2; simpl; ring.
Qed.

(** ** The other round trip *)

Lemma rotation_redone (rp dp : R) (v : vec3) :
  mat_vec (rot_x (cos (dp - 0.5 * PI)) (sin (dp - 0.5 * PI)))
    (mat_vec (rot_z (cos (-1 * rp)) (sin (-1 * rp)))
       (mat_vec (rot_z (cos rp) (sin rp))
          (mat_vec (rot_x (cos (0.5 * PI - dp)) (sin (0.5 * PI - dp))) v)))
  = v.
Proof.
  replace (dp - 0.5 * PI) with (- (0.5 * PI - dp)) by ring.
  replace (-1 * rp) with (- rp) by ring.
  rewrite !cos_neg, !sin_neg.
  pose proof (rot_z_undone (cos rp) (- sin rp)
                (mat_vec (rot_x (cos (0.5 * PI - dp)) (sin (0.5 * PI - dp))) v))
    as Hz.
  rewrite Ropp_involutive in Hz.
  rewrite Hz by (pose proof (cos_sin_unit rp); nra).
  apply rot_x_undone, cos_sin_unit.
Qed.

Lemma v2_forward_inverse (lon lat rp dp : R) (ra dec : R) :
  sky_vector ra dec = v2_inverse lon lat rp dp ->
  v2_forward ra dec rp dp = sky_vector lon lat.
Proof.
  intros H; unfold v2_forward; rewrite H; unfold v2_inverse.
  apply rotation_redone.
Qed.

Lemma round_trip_scalar (ra dec rp dp : R) :
  0 <= ra < 2 * PI ->
  - (PI / 2) < dec < PI / 2 ->
  sin ra < - tol \/ 0 <= sin ra ->
  v_0 (v2_forward ra dec rp dp) <= 0
  \/ tol * cc_of (v2_forward ra dec rp dp) < v_0 (v2_forward ra dec rp dp) ->
  _raDecFromNativeLonLat
    (Scalar (lon_scalar flip (v2_forward ra dec rp dp)))
    (Scalar (lat_of (v2_forward ra dec rp dp))) rp dp
  = Ok (Scalar ra, Scalar dec).
Proof.
  intros Hra Hdec Hsky Hnat.
  unfold _raDecFromNativeLonLat; rewrite inverse_scalar.
  rewrite (v2_inverse_forward ra dec rp dp)
    by (apply sky_of_resolved; [apply unit_v2_forward | exact Hnat]).
  destruct (resolved_of_sky ra dec Hra Hdec Hsky) as [Hl Hb].
  now rewrite Hl, Hb.
Qed.

Lemma margin_pos : 0 < margin.
Proof. unfold margin; lra. Qed.

Lemma tol_lt_margin : tol < margin.
Proof. unfold tol, margin; lra. Qed.

(** Off the meridian the tolerance of the flip condition hides nothing. *)
Lemma off_meridian_resolved (v : vec3) :
  off_meridian v -> v_0 v <= 0 \/ tol * cc_of v < v_0 v.
Proof.
  intros [Hc Hx].
  pose proof margin_pos; pose proof tol_lt_margin.
  destruct (Rle_lt_dec (v_0 v) 0) as [Hn | Hp]; [left; exact Hn | right].
  rewrite Rabs_pos_eq in Hx by lra.
  nra.
Qed.

Lemma off_meridian_sky (a b : R) :
  margin <= cos b -> margin <= Rabs (sin a) ->
  off_meridian (sky_vector a b) /\ (sin a < - tol \/ 0 <= sin a).
Proof.
  intros Hb Ha.
  pose proof margin_pos; pose proof tol_lt_margin.
  split.
  - unfold off_meridian.
    rewrite cc_of_sky by lra.
    split; [exact Hb |].
    unfold sky_vector, v_0; simpl.
    replace (-1 * cos b * sin a) with (- (cos b * sin a)) by ring.
    rewrite Rabs_Ropp, Rabs_mult, (Rabs_pos_eq (cos b)) by lra.
    rewrite (Rmult_comm margin).
    apply Rmult_le_compat_l; lra.
  - destruct (Rle_lt_dec 0 (sin a)) as [Hp | Hn]; [right; exact Hp | left].
    rewrite Rabs_left in Ha by exact Hn; lra.
Qed.

Lemma cos_margin_range (b : R) :
  - (PI / 2) <= b <= PI / 2 -> margin <= cos b -> - (PI / 2) < b < PI / 2.
Proof.
  intros Hb Hc; pose proof margin_pos.
  split.
  - destruct Hb as [[Hlt | Heq] _]; [exact Hlt |].
    rewrite <- Heq, cos_neg, cos_PI2 in Hc; lra.
  - destruct Hb as [_ [Hlt | Heq]]; [exact Hlt |].
    rewrite Heq, cos_PI2 in Hc; lra.
Qed.

(** The forward transform undoes the inverse one: for [0 <= lon < 2*pi] and
    [-pi/2 <= lat <= pi/2], when the native direction and the sky direction
    it stands for are both off the meridian and off the poles by the
    margin, [_nativeLonLatFromRaDec] of [_raDecFromNativeLonLat(lon, lat)]
    is [(lon, lat)]. *)
Theorem round_trip_from_native (lon lat raPointing decPointing : R) :
  0 <= lon < 2 * PI ->
  - (PI / 2) <= lat <= PI / 2 ->
  margin <= cos lat ->
  margin <= Rabs (sin lon) ->
  off_meridian (v2_inverse lon lat raPointing decPointing) ->
  exists ra dec,
    _raDecFromNativeLonLat (Scalar lon) (Scalar lat) raPointing decPointing
    = Ok (Scalar ra, Scalar dec)
    /\ _nativeLonLatFromRaDec (Scalar ra) (Scalar dec) raPointing decPointing
       = Ok (Scalar lon, Scalar lat).
Proof.
  intros Hlon Hlat Hclat Hslon Hsky.
  pose proof (cos_margin_range lat Hlat Hclat) as Hlat'.
  destruct (off_meridian_sky lon lat Hclat Hslon) as [_ Hnat].
  set (v := v2_inverse lon lat raPointing decPointing) in *.
  exists (lon_scalar flip v), (lat_of v).
  split; [apply inverse_scalar |].
  unfold _nativeLonLatFromRaDec; rewrite forward_scalar.
  rewrite (v2_forward_inverse lon lat raPointing decPointing)
    by (apply sky_of_resolved;
        [apply unit_v2_inverse | apply off_meridian_resolved, Hsky]).
  destruct (resolved_of_sky lon lat Hlon Hlat' Hnat) as [Hl Hb].
  now rewrite Hl, Hb.
Qed.

Lemma round_trip_from_native_witness :
  exists ra dec,
    _raDecFromNativeLonLat (Scalar (PI / 2)) (Scalar 0) 0 (PI / 2)
    = Ok (Scalar ra, Scalar dec)
    /\ _nativeLonLatFromRaDec (Scalar ra) (Scalar dec) 0 (PI / 2)
       = Ok (Scalar (PI / 2), Scalar 0).
Proof.
  pose proof PI_RGT_0 as Hpi.
  apply (round_trip_from_native (PI / 2) 0 0 (PI / 2)).
  - lra.
  - lra.
  - rewrite cos_0; unfold margin; lra.
  - rewrite sin_PI2, Rabs_R1; unfold margin; lra.
  - rewrite v2_inverse_polar.
    apply off_meridian_sky.
    + rewrite cos_0; unfold margin; lra.
    + rewrite sin_PI2, Rabs_R1; unfold margin; lra.
Defined.

(** The native north pole is sent back to the declination of the pointing,
    whatever the longitude given with it; and to its right ascension too
    when the pointing is off the meridian [sin(ra) = 0] and off the
    celestial poles by the margin. *)
Theorem native_pole_is_pointing (lon raPointing decPointing : R) :
  - (PI / 2) < decPointing < PI / 2 ->
  exists ra,
    _raDecFromNativeLonLat (Scalar lon) (Scalar (PI / 2))
      raPointing decPointing
    = Ok (Scalar ra, Scalar decPointing)
    /\ (0 <= raPointing < 2 * PI ->
        margin <= Rabs (sin raPointing) ->
        margin <= cos decPointing ->
        ra = raPointing).
Proof.
  intros Hdec.
  unfold _raDecFromNativeLonLat; rewrite inverse_scalar.
  assert (Hv : v2_inverse lon (PI / 2) raPointing decPointing
               = sky_vector raPointing decPointing).
  { unfold v2_inverse.
    replace (0.5 * PI - decPointing) with (- (decPointing - 0.5 * PI)) by ring.
    rewrite cos_neg, sin_neg, cos_shift_pointing, sin_shift_pointing.
    unfold sky_vector, mat_vec, rot_x, rot_z, row_dot, v_0, v_1, v_2; simpl.
    rewrite cos_PI2, sin_PI2.
    f_equal; [f_equal |]; ring. }
  rewrite Hv.
  assert (Hcb : 0 < cos decPointing) by (apply cos_gt_0; lra).
  assert (Hlat : lat_of (sky_vector raPointing decPointing) = decPointing).
  { rewrite lat_of_pos by (rewrite cc_of_sky; lra).
    rewrite cc_of_sky by lra; unfold sky_vector, v_2; simpl.
    change (sin decPointing / cos decPointing) with (tan decPointing).
    apply atan_tan; lra. }
  eexists; split; [now rewrite Hlat |].
  intros Hra Hs Hc.
  destruct (off_meridian_sky raPointing decPointing Hc Hs) as [_ Hwin].
  exact (proj1 (resolved_of_sky raPointing decPointing Hra Hdec Hwin)).
Qed.

Lemma native_pole_is_pointing_witness :
  exists ra,
    _raDecFromNativeLonLat (Scalar 1) (Scalar (PI / 2)) (PI / 2) 0
    = Ok (Scalar ra, Scalar 0)
    /\ (0 <= PI / 2 < 2 * PI ->
        margin <= Rabs (sin (PI / 2)) ->
        margin <= cos 0 ->
        ra = PI / 2).
Proof.
  pose proof PI_RGT_0 as Hpi.
  apply (native_pole_is_pointing 1 (PI / 2) 0); lra.
Defined.

(** ** Batches of the inverse transform and of the degree wrappers *)

(** On an equal-length batch the array branch of [_raDecFromNativeLonLat]
    returns, entry by entry, exactly what its scalar branch returns. *)
Theorem inverse_batch_equals_elementwise (lons lats : list R)
  (raPointing decPointing : R) :
  length lons = length lats ->
  exists ras decs,
    _raDecFromNativeLonLat (Array1 lons) (Array1 lats) raPointing decPointing
    = Ok (Array1 ras, Array1 decs)
    /\ length ras = length lons
    /\ length decs = length lons
    /\ forall i lon lat,
        nth_error lons i = Some lon ->
        nth_error lats i = Some lat ->
        exists ra dec,
          _raDecFromNativeLonLat (Scalar lon) (Scalar lat)
            raPointing decPointing
          = Ok (Scalar ra, Scalar dec)
          /\ nth_error ras i = Some ra
          /\ nth_error decs i = Some dec.
Proof.
  intros Hlen.
  unfold _raDecFromNativeLonLat.
  rewrite inverse_array by exact Hlen.
  do 2 eexists; split; [reflexivity |].
  split; [apply length_zipWith, Hlen |].
  split; [apply length_zipWith, Hlen |].
  intros i lon lat Hlon Hlat.
  rewrite inverse_scalar.
  do 2 eexists; split; [reflexivity |].
  split.
  - apply (nth_error_zipWith
             (fun lon lat =>
                lon_scalar flip (v2_inverse lon lat raPointing decPointing)));
      assumption.
  - apply (nth_error_zipWith
             (fun lon lat => lat_of (v2_inverse lon lat raPointing decPointing)));
      assumption.
Qed.

Lemma inverse_batch_equals_elementwise_witness :
  exists ras decs,
    _raDecFromNativeLonLat (Array1 [0; 1]) (Array1 [1; 0]) 0 0
    = Ok (Array1 ras, Array1 decs)
    /\ length ras = length [0; 1]
    /\ length decs = length [0; 1]
    /\ forall i lon lat,
        nth_error [0; 1] i = Some lon ->
        nth_error [1; 0] i = Some lat ->
        exists ra dec,
          _raDecFromNativeLonLat (Scalar lon) (Scalar lat) 0 0
          = Ok (Scalar ra, Scalar dec)
          /\ nth_error ras i = Some ra
          /\ nth_error decs i = Some dec.
Proof.
  apply (inverse_batch_equals_elementwise [0; 1] [1; 0] 0 0).
  reflexivity.
Defined.

Lemma degrees_radians (a : R) : degrees (radians a) = a.
Proof. unfold degrees, radians; field; pose proof PI_RGT_0; lra. Qed.

Lemma radians_degrees (a : R) : radians (degrees a) = a.
Proof. unfold degrees, radians; field; pose proof PI_RGT_0; lra. Qed.

Lemma zipWith_map_both {A B A' B' C : Type} (f : A' -> B' -> C)
  (g : A -> A') (h : B -> B') (l1 : list A) :
  forall l2,
    zipWith f (map g l1) (map h l2) = zipWith (fun a b => f (g a) (h b)) l1 l2.
Proof.
  induction l1 as [| a l1 IH]; intros [| b l2]; simpl; try reflexivity.
  now rewrite IH.
Qed.

(** The degree wrappers on an equal-length batch return, entry by entry,
    exactly what they return for each pair of scalars. *)
Theorem degree_wrappers_batch (first second : list R)
  (raPointing decPointing : R) :
  length first = length second ->
  exists lons lats ras decs,
    nativeLonLatFromRaDec (Array1 first) (Array1 second)
      raPointing decPointing = Ok (Array1 lons, Array1 lats)
    /\ raDecFromNativeLonLat (Array1 first) (Array1 second)
         raPointing decPointing = Ok (Array1 ras, Array1 decs)
    /\ forall i a b,
        nth_error first i = Some a ->
        nth_error second i = Some b ->
        exists lon lat ra dec,
          nativeLonLatFromRaDec (Scalar a) (Scalar b) raPointing decPointing
          = Ok (Scalar lon, Scalar lat)
          /\ raDecFromNativeLonLat (Scalar a) (Scalar b)
               raPointing decPointing
             = Ok (Scalar ra, Scalar dec)
          /\ nth_error lons i = Some lon /\ nth_error lats i = Some lat
          /\ nth_error ras i = Some ra /\ nth_error decs i = Some dec.
Proof.
  intros Hlen.
  unfold nativeLonLatFromRaDec, raDecFromNativeLonLat,
    _nativeLonLatFromRaDec, _raDecFromNativeLonLat.
  cbn [ufunc1].
  rewrite forward_array, inverse_array by (rewrite !length_map; exact Hlen).
  cbn [bind fst snd ufunc1].
  rewrite !map_zipWith, !zipWith_map_both.
  do 4 eexists.
  split; [reflexivity |].
  split; [reflexivity |].
  intros i a b Ha Hb.
  rewrite forward_scalar, inverse_scalar.
  cbn [bind fst snd ufunc1].
  do 4 eexists.
  split; [reflexivity |].
  split; [reflexivity |].
  repeat split;
    match goal with
    | |- nth_error (zipWith ?f _ _) _ = _ =>
        apply (nth_error_zipWith f); assumption
    end.
Qed.

Lemma degree_wrappers_batch_witness :
  exists lons lats ras decs,
    nativeLonLatFromRaDec (Array1 [0; 270]) (Array1 [90; 0]) 0 0
    = Ok (Array1 lons, Array1 lats)
    /\ raDecFromNativeLonLat (Array1 [0; 270]) (Array1 [90; 0]) 0 0
       = Ok (Array1 ras, Array1 decs)
    /\ forall i a b,
        nth_error [0; 270] i = Some a ->
        nth_error [90; 0] i = Some b ->
        exists lon lat ra dec,
          nativeLonLatFromRaDec (Scalar a) (Scalar b) 0 0
          = Ok (Scalar lon, Scalar lat)
          /\ raDecFromNativeLonLat (Scalar a) (Scalar b) 0 0
             = Ok (Scalar ra, Scalar dec)
          /\ nth_error lons i = Some lon /\ nth_error lats i = Some lat
          /\ nth_error ras i = Some ra /\ nth_error decs i = Some dec.
Proof.
  apply (degree_wrappers_batch [0; 270] [90; 0] 0 0).
  reflexivity.
Defined.

(** The inverse transform undoes the forward one: for [0 <= ra < 2*pi] and
    [-pi/2 <= dec <= pi/2], when the sky direction and its rotated image
    are both off the meridian and off the poles by the margin,
    [_raDecFromNativeLonLat] of [_nativeLonLatFromRaDec(ra, dec)] is
    [(ra, dec)]. *)
Theorem round_trip_off_meridian (ra dec raPointing decPointing : R) :
  0 <= ra < 2 * PI ->
  - (PI / 2) <= dec <= PI / 2 ->
  margin <= cos dec ->
  margin <= Rabs (sin ra) ->
  off_meridian (v2_forward ra dec raPointing decPointing) ->
  exists lon lat,
    _nativeLonLatFromRaDec (Scalar ra) (Scalar dec) raPointing decPointing
    = Ok (Scalar lon, Scalar lat)
    /\ _raDecFromNativeLonLat (Scalar lon) (Scalar lat) raPointing decPointing
       = Ok (Scalar ra, Scalar dec).
Proof.
  intros Hra Hdec Hcdec Hsra Hnat.
  do 2 eexists; split; [apply forward_scalar |].
  apply round_trip_scalar.
  - exact Hra.
  - apply cos_margin_range; assumption.
  - apply (off_meridian_sky ra dec); assumption.
  - apply off_meridian_resolved, Hnat.
Qed.

Lemma round_trip_off_meridian_witness :
  exists lon lat,
    _nativeLonLatFromRaDec (Scalar (3 * (PI / 2))) (Scalar 0) 0 0
    = Ok (Scalar lon, Scalar lat)
    /\ _raDecFromNativeLonLat (Scalar lon) (Scalar lat) 0 0
       = Ok (Scalar (3 * (PI / 2)), Scalar 0).
Proof.
  pose proof PI_RGT_0 as Hpi.
  apply (round_trip_off_meridian (3 * (PI / 2)) 0 0 0).
  - lra.
  - lra.
  - rewrite cos_0; unfold margin; lra.
  - rewrite sin_3PI2, Rabs_left by lra; unfold margin; lra.
  - rewrite known_vector_3.
    unfold off_meridian, cc_of, v_0, v_1; simpl.
    replace (1 * 1 + 0 * 0) with 1 by ring.
    rewrite sqrt_1, Rabs_R1; unfold margin; lra.
Defined.

(** In degrees: for [0 <= ra < 360] and [-90 <= dec <= 90], when the sky
    direction and its rotated image are both off the meridian and off the
    poles by the margin, [raDecFromNativeLonLat] of
    [nativeLonLatFromRaDec(ra, dec)] is [(ra, dec)]. *)
Theorem round_trip_degrees (ra dec raPointing decPointing : R) :
  0 <= ra < 360 ->
  -90 <= dec <= 90 ->
  margin <= cos (radians dec) ->
  margin <= Rabs (sin (radians ra)) ->
  off_meridian (v2_forward (radians ra) (radians dec)
                  (radians raPointing) (radians decPointing)) ->
  exists lon lat,
    nativeLonLatFromRaDec (Scalar ra) (Scalar dec) raPointing decPointing
    = Ok (Scalar lon, Scalar lat)
    /\ raDecFromNativeLonLat (Scalar lon) (Scalar lat) raPointing decPointing
       = Ok (Scalar ra, Scalar dec).
Proof.
  intros Hra Hdec Hcdec Hsra Hnat.
  pose proof PI_RGT_0 as Hpi.
  assert (Hk : 0 < PI / 180) by (apply Rdiv_lt_0_compat; lra).
  unfold nativeLonLatFromRaDec, raDecFromNativeLonLat, _nativeLonLatFromRaDec.
  cbn [ufunc1]; rewrite forward_scalar; cbn [bind fst snd ufunc1].
  do 2 eexists; split; [reflexivity |].
  rewrite !radians_degrees.
  rewrite round_trip_scalar.
  - cbn [bind fst snd ufunc1]; now rewrite !degrees_radians.
  - unfold radians; split.
    + apply Rmult_le_pos; lra.
    + replace (2 * PI) with (360 * (PI / 180)) by field.
      apply Rmult_lt_compat_r; lra.
  - apply cos_margin_range; [| exact Hcdec].
    unfold radians; split.
    + replace (- (PI / 2)) with (-90 * (PI / 180)) by field.
      apply Rmult_le_compat_r; lra.
    + replace (PI / 2) with (90 * (PI / 180)) by field.
      apply Rmult_le_compat_r; lra.
  - apply (off_meridian_sky (radians ra) (radians dec)); assumption.
  - apply off_meridian_resolved, Hnat.
Qed.

Lemma round_trip_degrees_witness :
  exists lon lat,
    nativeLonLatFromRaDec (Scalar 270) (Scalar 0) 0 0
    = Ok (Scalar lon, Scalar lat)
    /\ raDecFromNativeLonLat (Scalar lon) (Scalar lat) 0 0
       = Ok (Scalar 270, Scalar 0).
Proof.
  apply (round_trip_degrees 270 0 0 0).
  - lra.
  - lra.
  - rewrite radians_0, cos_0; unfold margin; lra.
  - rewrite radians_270, sin_3PI2, Rabs_left by lra; unfold margin; lra.
  - rewrite radians_270, radians_0, known_vector_3.
    unfold off_meridian, cc_of, v_0, v_1; simpl.
    replace (1 * 1 + 0 * 0) with 1 by ring.
    rewrite sqrt_1, Rabs_R1; unfold margin; lra.
Defined.

(* ================================================================= *)
(** * The bounding box of the corners *)

Lemma fold_lower (xs : list R) :
  forall v,
    exists m,
      fold_left lower xs (Some v) = Some m
      /\ m <= v /\ Forall (fun x => m <= x) xs /\ (m = v \/ In m xs).
Proof.
  induction xs as [| x xs IH]; intros v; simpl.
  - exists v; repeat split; [lra | constructor | now left].
  - destruct (Rlt_dec x v) as [Hlt | Hge].
    + destruct (IH x) as (m & Hf & Hle & Hall & Hin).
      exists m; repeat split; [exact Hf | lra | constructor; assumption |].
      right; destruct Hin as [-> | Hin]; [now left | now right].
    + destruct (IH v) as (m & Hf & Hle & Hall & Hin).
      exists m; repeat split; [exact Hf | exact Hle | constructor; [lra | assumption] |].
      destruct Hin as [-> | Hin]; [now left | right; now right].
Qed.

Lemma fold_upper (xs : list R) :
  forall v,
    exists m,
      fold_left upper xs (Some v) = Some m
      /\ v <= m /\ Forall (fun x => x <= m) xs /\ (m = v \/ In m xs).
Proof.
  induction xs as [| x xs IH]; intros v; simpl.
  - exists v; repeat split; [lra | constructor | now left].
  - destruct (Rlt_dec v x) as [Hlt | Hge].
    + destruct (IH x) as (m & Hf & Hle & Hall & Hin).
      exists m; repeat split; [exact Hf | lra | constructor; assumption |].
      right; destruct Hin as [-> | Hin]; [now left | now right].
    + destruct (IH v) as (m & Hf & Hle & Hall & Hin).
      exists m; repeat split; [exact Hf | exact Hle | constructor; [lra | assumption] |].
      destruct Hin as [-> | Hin]; [now left | right; now right].
Qed.

Lemma bounds_fold {P : Type} (t : P -> R * R) (l : list P) :
  forall a b c d,
    fold_left (bounds_step P t) l (a, b, c, d)
    = (fold_left lower (map (fun p => fst (t p)) l) a,
       fold_left upper (map (fun p => fst (t p)) l) b,
       fold_left lower (map (fun p => snd (t p)) l) c,
       fold_left upper (map (fun p => snd (t p)) l) d).
Proof.
  induction l as [| p l IH]; intros a b c d; simpl; [reflexivity |].
  now rewrite IH.
Qed.

(** With no corner every bound stays [None]; with at least one, the four
    bounds are numbers, every transformed corner lies inside the box they
    describe, and each bound is the coordinate of some corner. *)
Theorem tan_pixel_bounds_box {P : Type} (t : P -> R * R) (l : list P) :
  _getTanPixelBounds P t [] = (None, None, None, None)
  /\ (l <> [] ->
      exists xPixMin xPixMax yPixMin yPixMax,
        _getTanPixelBounds P t l
        = (Some xPixMin, Some xPixMax, Some yPixMin, Some yPixMax)
        /\ xPixMin <= xPixMax /\ yPixMin <= yPixMax
        /\ (forall p, In p l ->
                      xPixMin <= fst (t p) <= xPixMax
                      /\ yPixMin <= snd (t p) <= yPixMax)
        /\ (exists p, In p l /\ fst (t p) = xPixMin)
        /\ (exists p, In p l /\ fst (t p) = xPixMax)
        /\ (exists p, In p l /\ snd (t p) = yPixMin)
        /\ (exists p, In p l /\ snd (t p) = yPixMax)).
Proof.
  split; [reflexivity |].
  destruct l as [| p0 l]; [congruence | intros _].
  unfold _getTanPixelBounds; cbn [fold_left bounds_step lower upper].
  rewrite bounds_fold.
  set (xs := map (fun p => fst (t p)) l); set (ys := map (fun p => snd (t p)) l).
  destruct (fold_lower xs (fst (t p0))) as (x0 & Hx0 & Lx0 & Ax0 & Ix0).
  destruct (fold_upper xs (fst (t p0))) as (x1 & Hx1 & Lx1 & Ax1 & Ix1).
  destruct (fold_lower ys (snd (t p0))) as (y0 & Hy0 & Ly0 & Ay0 & Iy0).
  destruct (fold_upper ys (snd (t p0))) as (y1 & Hy1 & Ly1 & Ay1 & Iy1).
  exists x0, x1, y0, y1.
  rewrite Hx0, Hx1, Hy0, Hy1.
  assert (Hattain : forall (f : P -> R) m,
             m = f p0 \/ In m (map f l) -> exists p, In p (p0 :: l) /\ f p = m).
  { intros f m [-> | Hin]; [exists p0; split; [now left | reflexivity] |].
    apply in_map_iff in Hin; destruct Hin as (p & Hp & Hin).
    exists p; split; [now right | exact Hp]. }
  split; [reflexivity |].
  split; [lra |].
  split; [lra |].
  split.
  - intros p [<- | Hin]; [lra |].
    rewrite Forall_forall in Ax0, Ax1, Ay0, Ay1.
    pose proof (Ax0 _ (in_map (fun p => fst (t p)) l p Hin)).
    pose proof (Ax1 _ (in_map (fun p => fst (t p)) l p Hin)).
    pose proof (Ay0 _ (in_map (fun p => snd (t p)) l p Hin)).
    pose proof (Ay1 _ (in_map (fun p => snd (t p)) l p Hin)).
    simpl in *; lra.
  - repeat split.
    + apply (Hattain (fun p => fst (t p))), Ix0.
    + apply (Hattain (fun p => fst (t p))), Ix1.
    + apply (Hattain (fun p => snd (t p))), Iy0.
    + apply (Hattain (fun p => snd (t p))), Iy1.
Qed.

Lemma tan_pixel_bounds_box_witness :
  exists xPixMin xPixMax yPixMin yPixMax,
    _getTanPixelBounds (R * R) (fun p => p) [(0, 4); (2, 0); (2, 4); (0, 0)]
    = (Some xPixMin, Some xPixMax, Some yPixMin, Some yPixMax)
    /\ xPixMin <= xPixMax /\ yPixMin <= yPixMax
    /\ (forall p, In p [(0, 4); (2, 0); (2, 4); (0, 0)] ->
                  xPixMin <= fst p <= xPixMax /\ yPixMin <= snd p <= yPixMax)
    /\ (exists p, In p [(0, 4); (2, 0); (2, 4); (0, 0)] /\ fst p = xPixMin)
    /\ (exists p, In p [(0, 4); (2, 0); (2, 4); (0, 0)] /\ fst p = xPixMax)
    /\ (exists p, In p [(0, 4); (2, 0); (2, 4); (0, 0)] /\ snd p = yPixMin)
    /\ (exists p, In p [(0, 4); (2, 0); (2, 4); (0, 0)] /\ snd p = yPixMax).
Proof.
  apply (proj2 (tan_pixel_bounds_box (fun p : R * R => p)
                  [(0, 4); (2, 0); (2, 4); (0, 0)])).
  discriminate.
Defined.

(* ================================================================= *)
(** * Further properties of the sampling grid *)

Lemma arange_within (start stop step : R) (l : list R) :
  0 < step ->
  np_arange start stop step = Ok l ->
  Forall (fun x => start <= x < stop) l.
Proof.
  intros Hs; unfold np_arange.
  destruct (Req_dec_T step 0); [lra |].
  intros H; injection H as <-.
  apply Forall_forall; intros x Hx.
  apply in_map_iff in Hx; destruct Hx as (i & <- & Hi).
  apply in_seq in Hi; simpl in Hi.
  pose proof (pos_INR i) as Hpos.
  pose proof (Zceil_bound ((stop - start) / step)) as [Hlo _].
  split; [nra |].
  assert (Hq : (stop - start) / step * step = stop - start) by (field; lra).
  assert (Hi' : INR i < (stop - start) / step).
  { destruct Hi as [_ Hi].
    assert (Hz : (Z.of_nat i < Zceil ((stop - start) / step))%Z) by lia.
    apply IZR_lt in Hz; rewrite <- INR_IZR_INZ in Hz.
    assert (Hz' : (Z.of_nat i + 1 <= Zceil ((stop - start) / step))%Z) by lia.
    apply IZR_le in Hz'; rewrite plus_IZR, <- INR_IZR_INZ in Hz'.
    lra. }
  nra.
Qed.

Lemma length_flat_map_const {A B : Type} (f : A -> list B) (n : nat)
  (l : list A) :
  (forall a, length (f a) = n) -> length (flat_map f l) = (length l * n)%nat.
Proof.
  intros H; induction l as [| a l IH]; simpl; [reflexivity |].
  now rewrite length_app, H, IH.
Qed.

(** For a box of positive width the grid has the three columns [xMin],
    the middle and [xMax], each sampled at [yMin + i*dx] for
    [i < ceil((yMax - yMin)/dx + 1/2)]; every sample has
    [xMin <= x <= xMax] and [yMin <= y < yMax + dx/2]. *)
Theorem grid_columns (xTanPixMin xTanPixMax yTanPixMin yTanPixMax : R) :
  xTanPixMin < xTanPixMax ->
  let dx := 0.5 * (xTanPixMax - xTanPixMin) in
  let rows := Z.to_nat (Zceil ((yTanPixMax - yTanPixMin) / dx + / 2)) in
  exists g,
    sample_grid xTanPixMin xTanPixMax yTanPixMin yTanPixMax = Ok g
    /\ g = flat_map
             (fun xx => map (fun i => (xx, yTanPixMin + INR i * dx))
                            (seq 0 rows))
             [xTanPixMin; xTanPixMin + dx; xTanPixMax]
    /\ length g = (3 * rows)%nat
    /\ Forall (fun p => xTanPixMin <= fst p <= xTanPixMax
                        /\ yTanPixMin <= snd p < yTanPixMax + 0.5 * dx) g.
Proof.
  intros Hlt dx rows.
  assert (Hdx : 0 < dx) by (unfold dx; lra).
  unfold sample_grid; cbv zeta; fold dx.
  rewrite (np_arange_count xTanPixMin _ dx 3).
  2: lra.
  2: { replace ((xTanPixMax + 0.5 * dx - xTanPixMin) / dx) with (5 / 2)
         by (unfold dx; replace 0.5 with (/ 2) by lra; field; lra).
       lra. }
  destruct (np_arange yTanPixMin (yTanPixMax + 0.5 * dx) dx) as [ys | e] eqn:Hys.
  2: { unfold np_arange in Hys; destruct (Req_dec_T dx 0); [lra | discriminate]. }
  pose proof (arange_within _ _ _ _ Hdx Hys) as Hin.
  unfold np_arange in Hys; destruct (Req_dec_T dx 0); [lra |].
  injection Hys as Hys.
  replace ((yTanPixMax + 0.5 * dx - yTanPixMin) / dx)
    with ((yTanPixMax - yTanPixMin) / dx + / 2) in Hys
    by (replace 0.5 with (/ 2) by lra; field; lra).
  fold rows in Hys.
  assert (Hxs : map (fun i => xTanPixMin + INR i * dx) (seq 0 (Z.to_nat 3))
                = [xTanPixMin; xTanPixMin + dx; xTanPixMax]).
  { change (Z.to_nat 3) with 3%nat; cbn [seq map].
    repeat (apply (f_equal2 (@cons R)); [unfold dx; simpl; lra |]).
    reflexivity. }
  rewrite Hxs; cbn [bind].
  eexists; split; [reflexivity |].
  split; [| split].
  - rewrite <- Hys; cbn [flat_map]; rewrite !map_map; reflexivity.
  - rewrite (length_flat_map_const _ (length ys)) by (intros; apply length_map).
    rewrite <- Hys, length_map, length_seq; reflexivity.
  - apply Forall_forall; intros [x y] Hp.
    apply in_flat_map in Hp; destruct Hp as (xx & Hxx & Hp).
    apply in_map_iff in Hp; destruct Hp as (yy & Heq & Hyy).
    injection Heq as <- <-.
    rewrite Forall_forall in Hin; specialize (Hin _ Hyy); simpl.
    split; [| exact Hin].
    simpl in Hxx; unfold dx in *.
    destruct Hxx as [<- | [<- | [<- | []]]]; lra.
Qed.

Lemma grid_columns_witness :
  exists g,
    sample_grid 0 2 0 4 = Ok g
    /\ g = flat_map
             (fun xx => map (fun i => (xx, 0 + INR i * (0.5 * (2 - 0))))
                            (seq 0 (Z.to_nat (Zceil ((4 - 0) / (0.5 * (2 - 0))
                                                     + / 2)))))
             [0; 0 + 0.5 * (2 - 0); 2]
    /\ length g
       = (3 * Z.to_nat (Zceil ((4 - 0) / (0.5 * (2 - 0)) + / 2)))%nat
    /\ Forall (fun p => 0 <= fst p <= 2
                        /\ 0 <= snd p < 4 + 0.5 * (0.5 * (2 - 0))) g.
Proof.
  apply (grid_columns 0 2 0 4); lra.
Defined.

Lemma grid_length (xTanPixMin xTanPixMax yTanPixMin yTanPixMax : R) :
  xTanPixMin < xTanPixMax ->
  exists g,
    sample_grid xTanPixMin xTanPixMax yTanPixMin yTanPixMax = Ok g
    /\ length g
       = (3 * Z.to_nat
                (Zceil ((yTanPixMax - yTanPixMin)
                        / (0.5 * (xTanPixMax - xTanPixMin)) + / 2)))%nat.
Proof.
  intros Hlt.
  set (dx := 0.5 * (xTanPixMax - xTanPixMin)).
  assert (Hdx : 0 < dx) by (unfold dx; lra).
  unfold sample_grid; cbv zeta; fold dx.
  rewrite (np_arange_count xTanPixMin _ dx 3).
  2: lra.
  2: { replace ((xTanPixMax + 0.5 * dx - xTanPixMin) / dx) with (5 / 2)
         by (unfold dx; replace 0.5 with (/ 2) by lra; field; lra).
       lra. }
  unfold np_arange; destruct (Req_dec_T dx 0); [lra |].
  replace ((yTanPixMax + 0.5 * dx - yTanPixMin) / dx)
    with ((yTanPixMax - yTanPixMin) / dx + / 2)
    by (replace 0.5 with (/ 2) by lra; field; lra).
  cbn [bind]; eexists; split; [reflexivity |].
  rewrite (length_flat_map_const _ _ _ (fun _ => length_map _ _)).
  rewrite !length_map, !length_seq; reflexivity.
Qed.

(** For a box of positive width the grid is 3x3 (nine samples) exactly
    when the height of the box is more than 0.75 times and at most 1.25
    times its width. *)
Theorem grid_is_3x3_iff (xTanPixMin xTanPixMax yTanPixMin yTanPixMax : R) :
  xTanPixMin < xTanPixMax ->
  exists g,
    sample_grid xTanPixMin xTanPixMax yTanPixMin yTanPixMax = Ok g
    /\ (length g = 9%nat
        <-> 0.75 * (xTanPixMax - xTanPixMin) < yTanPixMax - yTanPixMin
            <= 1.25 * (xTanPixMax - xTanPixMin)).
Proof.
  intros Hlt.
  destruct (grid_length xTanPixMin xTanPixMax yTanPixMin yTanPixMax Hlt)
    as (g & Hg & Hlen).
  exists g; split; [exact Hg |].
  rewrite Hlen.
  set (q := (yTanPixMax - yTanPixMin) / (0.5 * (xTanPixMax - xTanPixMin)) + / 2).
  assert (Hq : q * (xTanPixMax - xTanPixMin)
               = 2 * (yTanPixMax - yTanPixMin)
                 + / 2 * (xTanPixMax - xTanPixMin)).
  { unfold q; replace 0.5 with (/ 2) by lra; field; lra. }
  pose proof (Zceil_bound q) as [Hlo Hhi].
  split.
  - intros H3.
    assert (Hz : Zceil q = 3%Z) by lia.
    rewrite Hz in Hlo, Hhi.
    split; nra.
  - intros [H1 H2].
    assert (Hz : Zceil q = 3%Z) by (apply Zceil_eq; split; nra).
    rewrite Hz; reflexivity.
Qed.

Lemma grid_is_3x3_iff_witness :
  exists g,
    sample_grid 0 2 0 2 = Ok g
    /\ (length g = 9%nat <-> 0.75 * (2 - 0) < 2 - 0 <= 1.25 * (2 - 0)).
Proof.
  apply (grid_is_3x3_iff 0 2 0 2); lra.
Defined.

(** A box of zero width makes the construction of the grid raise: the
    step of [numpy.arange] is zero. *)
Theorem grid_zero_width_raises (xTanPix yTanPixMin yTanPixMax : R) :
  sample_grid xTanPix xTanPix yTanPixMin yTanPixMax = Raise ArangeLength.
Proof.
  unfold sample_grid, np_arange; cbv zeta.
  destruct (Req_dec_T (0.5 * (xTanPix - xTanPix)) 0) as [_ | Hn];
    [reflexivity | exfalso; apply Hn; ring].
Qed.

(* ================================================================= *)
(** * Further properties of the linear solve *)

Lemma dot_sum_self_nonneg (l : list R) : 0 <= dot_sum l l.
Proof.
  induction l as [| a l IH]; [unfold dot_sum; simpl; lra |].
  rewrite dot_sum_cons; nra.
Qed.

(** Cauchy-Schwarz: the determinant of the normal matrix is not negative. *)
Lemma normal_determinant_nonneg (dxs dys : list R) :
  length dxs = length dys ->
  0 <= dot_sum dxs dxs * dot_sum dys dys - dot_sum dxs dys * dot_sum dxs dys.
Proof.
  intros Hlen.
  pose proof (dot_sum_self_nonneg dxs) as Hx.
  pose proof (dot_sum_self_nonneg dys) as Hy.
  set (sxx := dot_sum dxs dxs) in *; set (syy := dot_sum dys dys) in *.
  pose proof (quad_form_nonneg (dot_sum dxs dys) (- sxx) dxs dys Hlen) as Hq.
  pose proof (quad_form_nonneg syy (- dot_sum dxs dys) dxs dys Hlen) as Hq'.
  fold sxx syy in Hq, Hq'.
  set (sxy := dot_sum dxs dys) in *.
  destruct (Rle_lt_or_eq_dec 0 sxx Hx) as [Hp | Hz].
  - assert (H : 0 <= sxx * (sxx * syy - sxy * sxy)) by nra.
    nra.
  - destruct (Rle_lt_or_eq_dec 0 syy Hy) as [Hp | Hz'].
    + assert (H : 0 <= syy * (sxx * syy - sxy * sxy)) by nra.
      nra.
    + pose proof (quad_form_nonneg 1 1 dxs dys Hlen) as H1.
      pose proof (quad_form_nonneg 1 (-1) dxs dys Hlen) as H2.
      fold sxx syy sxy in H1, H2.
      nra.
Qed.

Lemma dot_sum_linear (a b : R) (l : list R) :
  forall l1 l2,
    length l = length l1 -> length l = length l2 ->
    dot_sum l (zipWith (fun x y => a * x + b * y) l1 l2)
    = a * dot_sum l l1 + b * dot_sum l l2.
Proof.
  induction l as [| c l IH]; intros [| x l1] [| y l2] H1 H2; simpl in H1, H2;
    try discriminate.
  - unfold dot_sum; simpl; ring.
  - cbn [zipWith]; rewrite !dot_sum_cons, IH by lia; ring.
Qed.

(** A fit of exactly linear data is exact: when [u_i = a*dx_i + b*dy_i]
    and [v_i = c*dx_i + d*dy_i] for every sample, and the normal matrix is
    not singular, the coefficients returned are [a, b, c, d]. *)
Theorem exact_on_linear_data (xPixList yPixList : list R)
  (crPix1 crPix2 a b c d : R) :
  length xPixList = length yPixList ->
  let dxs := map (fun x => x - crPix1) xPixList in
  let dys := map (fun y => y - crPix2) yPixList in
  dot_sum dxs dxs * dot_sum dys dys - dot_sum dxs dys * dot_sum dxs dys <> 0 ->
  cd_coefficients xPixList yPixList crPix1 crPix2
    (zipWith (fun dx dy => a * dx + b * dy) dxs dys)
    (zipWith (fun dx dy => c * dx + d * dy) dxs dys)
  = Ok [a; b; c; d].
Proof.
  intros Hy dxs dys HD.
  assert (Lx : length dxs = length xPixList) by apply length_map.
  assert (Ly : length dys = length xPixList)
    by (unfold dys; rewrite length_map; lia).
  rewrite cd_coefficients_system
    by (rewrite ?length_zipWith; lia).
  cbv zeta; fold dxs dys.
  rewrite !dot_sum_linear by lia.
  rewrite solve_block_regular by exact HD.
  rewrite (dot_sum_comm dys dxs).
  f_equal; repeat (apply (f_equal2 (@cons R)); [field; exact HD |]).
  reflexivity.
Qed.

Lemma exact_on_linear_data_witness :
  cd_coefficients [1; 0; 0] [0; 1; 0] 0 0
    (zipWith (fun dx dy => 2 * dx + 3 * dy)
       (map (fun x => x - 0) [1; 0; 0]) (map (fun y => y - 0) [0; 1; 0]))
    (zipWith (fun dx dy => 5 * dx + 7 * dy)
       (map (fun x => x - 0) [1; 0; 0]) (map (fun y => y - 0) [0; 1; 0]))
  = Ok [2; 3; 5; 7].
Proof.
  apply (exact_on_linear_data [1; 0; 0] [0; 1; 0] 0 0 2 3 5 7 eq_refl).
  unfold dot_sum; simpl; lra.
Defined.

(** The coefficients depend on the pixels only through their offsets from
    the reference pixel: moving all pixels and the reference pixel by the
    same amounts changes nothing, on every input. *)
Theorem translation_invariance (tx ty : R) (xPixList yPixList : list R)
  (crPix1 crPix2 : R) (uList vList : list R) :
  cd_coefficients (map (fun x => x + tx) xPixList)
    (map (fun y => y + ty) yPixList) (crPix1 + tx) (crPix2 + ty) uList vList
  = cd_coefficients xPixList yPixList crPix1 crPix2 uList vList.
Proof.
  assert (Hx : map (fun x => x - (crPix1 + tx)) (map (fun x => x + tx) xPixList)
               = map (fun x => x - crPix1) xPixList)
    by (rewrite map_map; apply map_ext; intros; ring).
  assert (Hy : map (fun y => y - (crPix2 + ty)) (map (fun y => y + ty) yPixList)
               = map (fun y => y - crPix2) yPixList)
    by (rewrite map_map; apply map_ext; intros; ring).
  unfold cd_coefficients; cbn [ufunc1].
  rewrite Hx, Hy; reflexivity.
Qed.

(** Sample lists of different lengths, neither of length 1, make the first
    product [delta_xList*uList] raise numpy's broadcasting error: the
    solve is never reached. *)
Theorem sample_length_mismatch (xPixList yPixList : list R)
  (crPix1 crPix2 : R) (uList vList : list R) :
  length xPixList <> length uList ->
  length xPixList <> 1%nat -> length uList <> 1%nat ->
  cd_coefficients xPixList yPixList crPix1 crPix2 uList vList
  = Raise BroadcastError.
Proof.
  intros Hne H1 H2.
  unfold cd_coefficients; cbn [ufunc1].
  rewrite ufunc2_mismatch by (rewrite ?length_map; assumption).
  reflexivity.
Qed.

Lemma sample_length_mismatch_witness :
  cd_coefficients [1; 2; 3] [1; 2; 3] 0 0 [1; 2] [1; 2; 3]
  = Raise BroadcastError.
Proof.
  apply (sample_length_mismatch [1; 2; 3] [1; 2; 3] 0 0 [1; 2] [1; 2; 3]);
    simpl; lia.
Defined.

Lemma quad_form_definite (sxx sxy syy h1 h2 : R) :
  0 <= sxx -> 0 < sxx * syy - sxy * sxy ->
  h1 * h1 * sxx + 2 * h1 * h2 * sxy + h2 * h2 * syy <= 0 ->
  h1 = 0 /\ h2 = 0.
Proof.
  intros Hx HD HQ.
  assert (Hp : 0 < sxx).
  { destruct (Rle_lt_or_eq_dec 0 sxx Hx) as [H | H]; [exact H |].
    rewrite <- H in HD; nra. }
  assert (Hid : sxx * (h1 * h1 * sxx + 2 * h1 * h2 * sxy + h2 * h2 * syy)
                = (sxx * h1 + sxy * h2) * (sxx * h1 + sxy * h2)
                  + (sxx * syy - sxy * sxy) * (h2 * h2)) by ring.
  set (q := h1 * h1 * sxx + 2 * h1 * h2 * sxy + h2 * h2 * syy) in *.
  set (det := sxx * syy - sxy * sxy) in *.
  assert (Hle : sxx * q <= 0).
  { pose proof (Rmult_le_compat_l sxx q 0 (Rlt_le _ _ Hp) HQ) as H.
    rewrite Rmult_0_r in H; exact H. }
  pose proof (Rle_0_sqr (sxx * h1 + sxy * h2)) as Hs1; unfold Rsqr in Hs1.
  pose proof (Rle_0_sqr h2) as Hs2; unfold Rsqr in Hs2.
  assert (Hh : det * (h2 * h2) <= 0) by lra.
  assert (H2 : h2 = 0).
  { destruct (Req_dec_T h2 0) as [H | H]; [exact H | exfalso].
    assert (0 < h2 * h2) by nra.
    assert (0 < det * (h2 * h2)) by (apply Rmult_lt_0_compat; assumption).
    lra. }
  subst h2.
  assert (Hs : (sxx * h1) * (sxx * h1) <= 0).
  { replace (sxx * h1 + sxy * 0) with (sxx * h1) in Hid by ring.
    replace (det * (0 * 0)) with 0 in Hid by ring.
    lra. }
  split; [| reflexivity].
  destruct (Req_dec_T h1 0) as [H | H]; [exact H | exfalso].
  assert (sxx * h1 <> 0) by (apply Rmult_integral_contrapositive_currified; lra).
  assert (0 < (sxx * h1) * (sxx * h1)) by nra.
  lra.
Qed.

Lemma residual_gap (c1 c2 a b : R) (dxs dys ws : list R) :
  length dxs = length dys -> length dxs = length ws ->
  dot_sum dxs dxs * c1 + dot_sum dxs dys * c2 = dot_sum dxs ws ->
  dot_sum dxs dys * c1 + dot_sum dys dys * c2 = dot_sum dys ws ->
  sq_residuals a b dxs dys ws - sq_residuals c1 c2 dxs dys ws
  = (a - c1) * (a - c1) * dot_sum dxs dxs
    + 2 * (a - c1) * (b - c2) * dot_sum dxs dys
    + (b - c2) * (b - c2) * dot_sum dys dys.
Proof.
  intros H1 H2 Hn1 Hn2.
  rewrite !sq_residuals_expand by assumption.
  rewrite <- Hn1, <- Hn2; ring.
Qed.

(** The coefficients returned are the only minimisers: a pair [(a, b)]
    whose squared residuals are not larger than those of [(cd11, cd12)]
    (or of [(cd21, cd22)] for [v]) is that pair. *)
Theorem minimiser_unique (xPixList yPixList : list R) (crPix1 crPix2 : R)
  (uList vList : list R) :
  length xPixList = length yPixList ->
  length xPixList = length uList ->
  length xPixList = length vList ->
  let dxs := map (fun x => x - crPix1) xPixList in
  let dys := map (fun y => y - crPix2) yPixList in
  dot_sum dxs dxs * dot_sum dys dys - dot_sum dxs dys * dot_sum dxs dys <> 0 ->
  exists cd11 cd12 cd21 cd22,
    cd_coefficients xPixList yPixList crPix1 crPix2 uList vList
    = Ok [cd11; cd12; cd21; cd22]
    /\ (forall a b,
           sq_residuals a b dxs dys uList
           <= sq_residuals cd11 cd12 dxs dys uList ->
           a = cd11 /\ b = cd12)
    /\ (forall a b,
           sq_residuals a b dxs dys vList
           <= sq_residuals cd21 cd22 dxs dys vList ->
           a = cd21 /\ b = cd22).
Proof.
  intros Hy Hu Hv dxs dys HD.
  assert (Lxy : length dxs = length dys)
    by (unfold dxs, dys; rewrite !length_map; exact Hy).
  assert (Lxu : length dxs = length uList)
    by (unfold dxs; rewrite length_map; exact Hu).
  assert (Lxv : length dxs = length vList)
    by (unfold dxs; rewrite length_map; exact Hv).
  pose proof (normal_determinant_nonneg dxs dys Lxy) as Hdet.
  pose proof (dot_sum_self_nonneg dxs) as Hxx.
  rewrite cd_coefficients_system by assumption; cbv zeta; fold dxs dys.
  rewrite solve_block_regular by exact HD.
  set (xsq := dot_sum dxs dxs) in *; set (ysq := dot_sum dys dys) in *.
  set (offDiag := dot_sum dxs dys) in *.
  do 4 eexists; split; [reflexivity |].
  split; intros a b Hle.
  - set (c1 := (ysq * dot_sum dxs uList - offDiag * dot_sum dys uList)
               / (xsq * ysq - offDiag * offDiag)) in *.
    set (c2 := (xsq * dot_sum dys uList - offDiag * dot_sum dxs uList)
               / (xsq * ysq - offDiag * offDiag)) in *.
    assert (N1 : xsq * c1 + offDiag * c2 = dot_sum dxs uList)
      by (unfold c1, c2; field; exact HD).
    assert (N2 : offDiag * c1 + ysq * c2 = dot_sum dys uList)
      by (unfold c1, c2; field; exact HD).
    pose proof (residual_gap c1 c2 a b dxs dys uList Lxy Lxu N1 N2) as Hgap.
    fold xsq ysq offDiag in Hgap.
    destruct (quad_form_definite xsq offDiag ysq (a - c1) (b - c2));
      [exact Hxx | lra | lra |].
    split; lra.
  - set (c1 := (ysq * dot_sum dxs vList - offDiag * dot_sum dys vList)
               / (xsq * ysq - offDiag * offDiag)) in *.
    set (c2 := (xsq * dot_sum dys vList - offDiag * dot_sum dxs vList)
               / (xsq * ysq - offDiag * offDiag)) in *.
    assert (N1 : xsq * c1 + offDiag * c2 = dot_sum dxs vList)
      by (unfold c1, c2; field; exact HD).
    assert (N2 : offDiag * c1 + ysq * c2 = dot_sum dys vList)
      by (unfold c1, c2; field; exact HD).
    pose proof (residual_gap c1 c2 a b dxs dys vList Lxy Lxv N1 N2) as Hgap.
    fold xsq ysq offDiag in Hgap.
    destruct (quad_form_definite xsq offDiag ysq (a - c1) (b - c2));
      [exact Hxx | lra | lra |].
    split; lra.
Qed.

Lemma minimiser_unique_witness :
  exists cd11 cd12 cd21 cd22,
    cd_coefficients [1; 0; 0] [0; 1; 0] 0 0 [2; 3; 0] [5; 7; 0]
    = Ok [cd11; cd12; cd21; cd22].
Proof.
  destruct (minimiser_unique [1; 0; 0] [0; 1; 0] 0 0 [2; 3; 0] [5; 7; 0]
              eq_refl eq_refl eq_refl)
    as (cd11 & cd12 & cd21 & cd22 & H & _).
  - unfold dot_sum; simpl; lra.
  - exists cd11, cd12, cd21, cd22; exact H.
Defined.

(* ================================================================= *)
(** * The gnomonic projection and its inverse *)

Lemma sin_minus_PI (a : R) : sin (a - PI) = - sin a.
Proof. rewrite sin_minus, sin_PI, cos_PI; ring. Qed.

Lemma cos_minus_PI (a : R) : cos (a - PI) = - cos a.
Proof. rewrite cos_minus, sin_PI, cos_PI; ring. Qed.

Lemma sin_plus_PI (a : R) : sin (a + PI) = - sin a.
Proof. rewrite sin_plus, sin_PI, cos_PI; ring. Qed.

Lemma cos_plus_PI (a : R) : cos (a + PI) = - cos a.
Proof. rewrite cos_plus, sin_PI, cos_PI; ring. Qed.

(** [arctan2] gives back the angle of a point in polar form. *)
Lemma arctan2_polar (r a : R) :
  0 < r -> - PI < a <= PI ->
  arctan2 (r * sin a) (r * cos a) = a.
Proof.
  intros Hr Ha.
  pose proof PI_RGT_0 as Hpi.
  destruct (Rtotal_order (cos a) 0) as [Hneg | [Hzero | Hpos]].
  - (* cos a < 0 *)
    assert (Hx : r * cos a < 0) by nra.
    unfold arctan2.
    destruct (Rlt_dec 0 (r * cos a)); [lra |].
    destruct (Rlt_dec (r * cos a) 0); [| lra].
    assert (Hq : r * sin a / (r * cos a) = sin a / cos a) by (field; lra).
    rewrite Hq.
    destruct (Rlt_le_dec (PI / 2) a) as [Hup | Hlow].
    + assert (Hs : 0 <= sin a) by (apply sin_ge_0; lra).
      destruct (Rle_dec 0 (r * sin a)); [| exfalso; nra].
      replace (sin a / cos a) with (tan (a - PI)).
      * rewrite atan_tan by lra; ring.
      * unfold tan; rewrite sin_minus_PI, cos_minus_PI; field; lra.
    + assert (Hlt : a < - (PI / 2)).
      { destruct (Rlt_le_dec a (- (PI / 2))) as [H | H]; [exact H |].
        pose proof (cos_ge_0 a H Hlow); lra. }
      assert (Hs : sin a < 0).
      { pose proof (sin_gt_0 (- a)) as H; rewrite sin_neg in H.
        assert (0 < - sin a) by (apply H; lra).
        lra. }
      destruct (Rle_dec 0 (r * sin a)); [exfalso; nra |].
      replace (sin a / cos a) with (tan (a + PI)).
      * rewrite atan_tan by lra; ring.
      * unfold tan; rewrite sin_plus_PI, cos_plus_PI; field; lra.
  - (* cos a = 0 *)
    rewrite Hzero, Rmult_0_r.
    destruct (Rle_lt_dec 0 a) as [Hnn | Hn].
    + assert (Ha2 : a = PI / 2).
      { apply cos_inj; [lra | lra | rewrite cos_PI2; exact Hzero]. }
      rewrite Ha2, sin_PI2, Rmult_1_r.
      apply arctan2_zero_pos, Hr.
    + assert (Ha2 : - a = PI / 2).
      { apply cos_inj; [lra | lra | rewrite cos_neg, cos_PI2; exact Hzero]. }
      assert (Ha3 : a = - (PI / 2)) by lra.
      rewrite Ha3, sin_neg, sin_PI2.
      rewrite arctan2_zero_neg by lra.
      reflexivity.
  - (* cos a > 0 *)
    assert (Hrange : - (PI / 2) < a < PI / 2).
    { split.
      - destruct (Rlt_le_dec (- (PI / 2)) a) as [H | H]; [exact H |].
        pose proof (cos_le_0 (- a)) as Hc; rewrite cos_neg in Hc.
        assert (cos a <= 0) by (apply Hc; lra).
        lra.
      - destruct (Rlt_le_dec a (PI / 2)) as [H | H]; [exact H |].
        assert (cos a <= 0) by (apply cos_le_0; lra).
        lra. }
    rewrite arctan2_pos by nra.
    replace (r * sin a / (r * cos a)) with (tan a)
      by (unfold tan; field; lra).
    apply atan_tan, Hrange.
Qed.

Lemma radius_of_north (lat : R) :
  0 < lat < PI / 2 ->
  radius_of lat = Fin (180 / (tan lat * PI)) /\ 0 < 180 / (tan lat * PI).
Proof.
  intros Hlat; pose proof PI_RGT_0 as Hpi.
  assert (Hc : 0 < cos lat) by (apply cos_gt_0; lra).
  assert (Ht : 0 < tan lat) by (apply tan_gt_0; lra).
  assert (Htp : 0 < tan lat * PI) by (apply Rmult_lt_0_compat; assumption).
  unfold radius_of, np_tan, np_div.
  destruct (Req_dec_T (cos lat) 0); [lra |].
  cbn [np_mul np_rdiv]; fold (tan lat); unfold np_div.
  destruct (Req_dec_T (tan lat * PI) 0); [lra |].
  split; [reflexivity |].
  apply Rdiv_lt_0_compat; lra.
Qed.

(** The projection of lines 333-335 and the deprojection written out in
    [testTanWcs] are inverse to each other on the northern native
    hemisphere: for [0 < lat < pi/2] and [0 <= lon < 2*pi] the projected
    [(u, v)] is finite, at distance [180/(pi*tan(lat))] from the origin,
    and is deprojected to the latitude [lat] and to the longitude [lon], or
    [lon - 2*pi] when [lon > pi]. *)
Theorem gnomonic_round_trip (lon lat : R) :
  0 <= lon < 2 * PI ->
  0 < lat < PI / 2 ->
  exists u v,
    intermediate_world lon lat = (Fin u, Fin v)
    /\ sqrt (u * u + v * v) = 180 / (tan lat * PI)
    /\ native_of_intermediate u v
       = (if Rle_dec lon PI then lon else lon - 2 * PI, Some lat).
Proof.
  intros Hlon Hlat; pose proof PI_RGT_0 as Hpi.
  destruct (radius_of_north lat Hlat) as [Hrad Hpos].
  set (r := 180 / (tan lat * PI)) in *.
  assert (Ht : 0 < tan lat) by (apply tan_gt_0; lra).
  unfold intermediate_world; rewrite Hrad; cbn [np_neg np_mul].
  exists (r * sin lon), (- r * cos lon).
  assert (Hnorm : sqrt (r * sin lon * (r * sin lon)
                        + - r * cos lon * (- r * cos lon)) = r).
  { pose proof (cos_sin_unit lon) as Hu.
    replace (r * sin lon * (r * sin lon) + - r * cos lon * (- r * cos lon))
      with (r * r * (cos lon * cos lon + sin lon * sin lon)) by ring.
    rewrite Hu, Rmult_1_r; apply sqrt_square; lra. }
  split; [reflexivity |].
  split; [exact Hnorm |].
  unfold native_of_intermediate; cbv zeta; rewrite Hnorm.
  replace (-1 * (- r * cos lon)) with (r * cos lon) by ring.
  unfold np_div.
  destruct (Req_dec_T (r * PI) 0) as [Hz | _]; [exfalso; nra |].
  cbn [np_arctan].
  replace (180 / (r * PI)) with (tan lat)
    by (unfold r; field; split; lra).
  rewrite atan_tan by lra.
  f_equal.
  destruct (Rle_dec lon PI) as [Hle | Hgt].
  - apply arctan2_polar; lra.
  - replace (sin lon) with (sin (lon - 2 * PI))
      by (rewrite sin_minus, sin_2PI, cos_2PI; ring).
    replace (cos lon) with (cos (lon - 2 * PI))
      by (rewrite cos_minus, sin_2PI, cos_2PI; ring).
    apply arctan2_polar; lra.
Qed.

Lemma gnomonic_round_trip_witness :
  exists u v,
    intermediate_world (PI / 2) (PI / 4) = (Fin u, Fin v)
    /\ sqrt (u * u + v * v) = 180 / (tan (PI / 4) * PI)
    /\ native_of_intermediate u v
       = (if Rle_dec (PI / 2) PI then PI / 2 else PI / 2 - 2 * PI,
          Some (PI / 4)).
Proof.
  pose proof PI_RGT_0 as Hpi.
  apply (gnomonic_round_trip (PI / 2) (PI / 4)); lra.
Defined.

(** On the native equator the projection is not finite: the radius is
    infinite and neither [u] nor [v] is a finite number, whatever the
    longitude. *)
Theorem equator_projects_to_infinity (lon : R) :
  radius_of 0 = PInf
  /\ (forall u, fst (intermediate_world lon 0) <> Fin u)
  /\ (forall v, snd (intermediate_world lon 0) <> Fin v).
Proof.
  assert (Hrad : radius_of 0 = PInf).
  { unfold radius_of, np_tan, np_div; rewrite sin_0, cos_0.
    destruct (Req_dec_T 1 0); [lra |].
    cbn [np_mul np_rdiv].
    replace (0 / 1 * PI) with 0 by field.
    unfold np_div.
    destruct (Req_dec_T 0 0) as [_ | Hn]; [| now elim Hn].
    destruct (Rlt_dec 0 180); [reflexivity | lra]. }
  split; [exact Hrad |].
  unfold intermediate_world; rewrite Hrad; cbn [fst snd np_neg np_mul].
  split; intros w.
  - destruct (Rlt_dec 0 (sin lon)); [discriminate |].
    destruct (Rlt_dec (sin lon) 0); discriminate.
  - destruct (Rlt_dec 0 (cos lon)); [discriminate |].
    destruct (Rlt_dec (cos lon) 0); discriminate.
Qed.

(* ================================================================= *)
(** * How the steps of tanWcsFromDetector compose *)

Lemma lat_of_sine (v : vec3) (s : R) :
  unit_vec v -> v_2 v = s -> 0 < s < 1 ->
  0 < lat_of v < PI / 2 /\ cos (lat_of v) * cos (lat_of v) = 1 - s * s.
Proof.
  intros Hu Hz Hs; pose proof PI_RGT_0 as Hpi.
  pose proof (sin_lat_unit v Hu) as Hsin; rewrite Hz in Hsin.
  pose proof (lat_of_range v) as Hr.
  pose proof (cos_sin_unit (lat_of v)) as Hcs.
  split; [| rewrite Hsin in Hcs; lra].
  split.
  - destruct (Rlt_le_dec 0 (lat_of v)) as [H | H]; [exact H |].
    pose proof (sin_ge_0 (- lat_of v)) as Hn; rewrite sin_neg in Hn.
    assert (0 <= - sin (lat_of v)) by (apply Hn; lra).
    lra.
  - destruct (Rlt_le_dec (lat_of v) (PI / 2)) as [H | H]; [exact H |].
    assert (He : lat_of v = PI / 2) by lra.
    rewrite He, sin_PI2 in Hsin; lra.
Qed.

(** A star less than 90 degrees from the pointing, and not at it, has
    finite intermediate world coordinates: with
    [s = sin(dec) sin(decPointing) + cos(dec) cos(decPointing)
    cos(ra - raPointing)] and [0 < s < 1], the forward transform gives a
    latitude in [(0, pi/2)] and the projection a finite [(u, v)] with
    [u^2 + v^2 = (180/pi)^2 (1 - s^2)/s^2]. *)
Theorem near_pointing_projects_finite (ra dec raPointing decPointing : R) :
  let s := sin dec * sin decPointing
           + cos dec * cos decPointing * cos (ra - raPointing) in
  0 < s < 1 ->
  exists lon lat u v,
    _nativeLonLatFromRaDec (Scalar ra) (Scalar dec) raPointing decPointing
    = Ok (Scalar lon, Scalar lat)
    /\ 0 < lat < PI / 2
    /\ intermediate_world lon lat = (Fin u, Fin v)
    /\ u * u + v * v = (180 / PI) * (180 / PI) * ((1 - s * s) / (s * s)).
Proof.
  intros s Hs; pose proof PI_RGT_0 as Hpi.
  set (v2 := v2_forward ra dec raPointing decPointing).
  assert (Hz : v_2 v2 = s).
  { unfold v2; rewrite v2_forward_closed; unfold v_2, s; simpl; ring. }
  destruct (lat_of_sine v2 s (unit_v2_forward _ _ _ _) Hz Hs) as [Hlat Hcos].
  pose proof (sin_lat_unit v2 (unit_v2_forward _ _ _ _)) as Hsin.
  rewrite Hz in Hsin.
  destruct (radius_of_north (lat_of v2) Hlat) as [Hrad Hpos].
  exists (lon_scalar flip v2), (lat_of v2).
  do 2 eexists.
  split; [apply forward_scalar |].
  split; [exact Hlat |].
  unfold intermediate_world; rewrite Hrad; cbn [np_neg np_mul].
  split; [reflexivity |].
  pose proof (cos_sin_unit (lon_scalar flip v2)) as Hu.
  assert (Hc : 0 < cos (lat_of v2)) by (apply cos_gt_0; lra).
  set (r := 180 / (tan (lat_of v2) * PI)) in *.
  replace (r * sin (lon_scalar flip v2) * (r * sin (lon_scalar flip v2))
           + - r * cos (lon_scalar flip v2) * (- r * cos (lon_scalar flip v2)))
    with (r * r * (cos (lon_scalar flip v2) * cos (lon_scalar flip v2)
                   + sin (lon_scalar flip v2) * sin (lon_scalar flip v2)))
    by ring.
  rewrite Hu, Rmult_1_r.
  unfold r, tan; rewrite Hsin.
  rewrite <- Hcos.
  field; repeat split; lra.
Qed.

Lemma near_pointing_projects_finite_witness :
  exists lon lat u v,
    _nativeLonLatFromRaDec (Scalar 0) (Scalar (PI / 4)) 0 (PI / 2)
    = Ok (Scalar lon, Scalar lat)
    /\ 0 < lat < PI / 2
    /\ intermediate_world lon lat = (Fin u, Fin v)
    /\ u * u + v * v
       = (180 / PI) * (180 / PI)
         * ((1 - (sin (PI / 4) * sin (PI / 2)
                  + cos (PI / 4) * cos (PI / 2) * cos (0 - 0))
                 * (sin (PI / 4) * sin (PI / 2)
                    + cos (PI / 4) * cos (PI / 2) * cos (0 - 0)))
            / ((sin (PI / 4) * sin (PI / 2)
                + cos (PI / 4) * cos (PI / 2) * cos (0 - 0))
               * (sin (PI / 4) * sin (PI / 2)
                  + cos (PI / 4) * cos (PI / 2) * cos (0 - 0)))).
Proof.
  apply (near_pointing_projects_finite 0 (PI / 4) 0 (PI / 2)).
  rewrite sin_PI2, cos_PI2, sin_PI4.
  pose proof (sqrt_lt_R0 2) as H2.
  assert (Hq : sqrt 2 * sqrt 2 = 2) by (apply sqrt_sqrt; lra).
  assert (Hp : 0 < sqrt 2) by (apply H2; lra).
  replace (1 / sqrt 2 * 1 + cos (PI / 4) * 0 * cos (0 - 0)) with (/ sqrt 2)
    by (field; lra).
  assert (Hi : 0 < / sqrt 2) by (apply Rinv_0_lt_compat, Hp).
  split; [exact Hi |].
  assert (Hii : / sqrt 2 * sqrt 2 = 1) by (field; lra).
  nra.
Defined.

Lemma bounds_facts {P : Type} (t : P -> R * R) (l : list P) :
  l <> [] ->
  exists xPixMin xPixMax yPixMin yPixMax,
    _getTanPixelBounds P t l
    = (Some xPixMin, Some xPixMax, Some yPixMin, Some yPixMax)
    /\ yPixMin <= yPixMax
    /\ (forall p, In p l -> xPixMin <= fst (t p) <= xPixMax)
    /\ (exists p, In p l /\ fst (t p) = xPixMin)
    /\ (exists p, In p l /\ fst (t p) = xPixMax).
Proof.
  destruct l as [| p0 l]; [congruence | intros _].
  unfold _getTanPixelBounds; cbn [fold_left bounds_step lower upper].
  rewrite bounds_fold.
  set (xs := map (fun p => fst (t p)) l); set (ys := map (fun p => snd (t p)) l).
  destruct (fold_lower xs (fst (t p0))) as (x0 & Hx0 & Lx0 & Ax0 & Ix0).
  destruct (fold_upper xs (fst (t p0))) as (x1 & Hx1 & Lx1 & Ax1 & Ix1).
  destruct (fold_lower ys (snd (t p0))) as (y0 & Hy0 & Ly0 & _).
  destruct (fold_upper ys (snd (t p0))) as (y1 & Hy1 & Ly1 & _).
  exists x0, x1, y0, y1.
  rewrite Hx0, Hx1, Hy0, Hy1.
  assert (Hattain : forall m,
             m = fst (t p0) \/ In m xs ->
             exists p, In p (p0 :: l) /\ fst (t p) = m).
  { intros m [-> | Hin]; [exists p0; split; [now left | reflexivity] |].
    apply in_map_iff in Hin; destruct Hin as (p & Hp & Hin).
    exists p; split; [now right | exact Hp]. }
  split; [reflexivity |].
  split; [lra |].
  split.
  - intros p [<- | Hin]; [lra |].
    rewrite Forall_forall in Ax0, Ax1.
    pose proof (Ax0 _ (in_map (fun p => fst (t p)) l p Hin)).
    pose proof (Ax1 _ (in_map (fun p => fst (t p)) l p Hin)).
    simpl in *; lra.
  - split; apply Hattain; assumption.
Qed.

Lemma sample_grid_explicit
  (xTanPixMin xTanPixMax yTanPixMin yTanPixMax : R) :
  xTanPixMin < xTanPixMax ->
  sample_grid xTanPixMin xTanPixMax yTanPixMin yTanPixMax
  = Ok (flat_map
          (fun xx =>
             map (fun i => (xx, yTanPixMin
                                + INR i * (0.5 * (xTanPixMax - xTanPixMin))))
                 (seq 0 (Z.to_nat
                           (Zceil ((yTanPixMax - yTanPixMin)
                                   / (0.5 * (xTanPixMax - xTanPixMin))
                                   + / 2)))))
          [xTanPixMin; xTanPixMin + 0.5 * (xTanPixMax - xTanPixMin);
           xTanPixMax]).
Proof.
  intros Hlt.
  set (dx := 0.5 * (xTanPixMax - xTanPixMin)).
  assert (Hdx : 0 < dx) by (unfold dx; lra).
  unfold sample_grid; cbv zeta; fold dx.
  rewrite (np_arange_count xTanPixMin _ dx 3).
  2: lra.
  2: { replace ((xTanPixMax + 0.5 * dx - xTanPixMin) / dx) with (5 / 2)
         by (unfold dx; replace 0.5 with (/ 2) by lra; field; lra).
       lra. }
  unfold np_arange; destruct (Req_dec_T dx 0); [lra |].
  replace ((yTanPixMax + 0.5 * dx - yTanPixMin) / dx)
    with ((yTanPixMax - yTanPixMin) / dx + / 2)
    by (replace 0.5 with (/ 2) by lra; field; lra).
  assert (Hxs : map (fun i => xTanPixMin + INR i * dx) (seq 0 (Z.to_nat 3))
                = [xTanPixMin; xTanPixMin + dx; xTanPixMax]).
  { change (Z.to_nat 3) with 3%nat; cbn [seq map].
    repeat (apply (f_equal2 (@cons R)); [unfold dx; simpl; lra |]).
    reflexivity. }
  rewrite Hxs; cbn [bind flat_map]; rewrite !map_map; reflexivity.
Qed.

(** The first two steps together.  When two corners of the detector
    differ in x, the grid is built on the bounding box of the corners: it
    contains the pixels [(xPixMin, yPixMin)] and [(xPixMax, yPixMin)], and
    no sample lies left, right or below the box.  When all corners share
    one x, the box has no width and the grid raises. *)
Theorem grid_of_corners {P : Type} (t : P -> R * R) (l : list P) :
  l <> [] ->
  exists xPixMin xPixMax yPixMin yPixMax,
    _getTanPixelBounds P t l
    = (Some xPixMin, Some xPixMax, Some yPixMin, Some yPixMax)
    /\ ((exists p q, In p l /\ In q l /\ fst (t p) < fst (t q)) ->
        exists g,
          sample_grid xPixMin xPixMax yPixMin yPixMax = Ok g
          /\ In (xPixMin, yPixMin) g /\ In (xPixMax, yPixMin) g
          /\ Forall (fun s => xPixMin <= fst s <= xPixMax
                              /\ yPixMin <= snd s) g)
    /\ ((forall p q, In p l -> In q l -> fst (t p) = fst (t q)) ->
        sample_grid xPixMin xPixMax yPixMin yPixMax = Raise ArangeLength).
Proof.
  intros Hne.
  destruct (bounds_facts t l Hne)
    as (x0 & x1 & y0 & y1 & Hb & Hy & Hin & (p0 & Hp0 & Hx0) & (p1 & Hp1 & Hx1)).
  exists x0, x1, y0, y1.
  split; [exact Hb |].
  split.
  - intros (p & q & Hp & Hq & Hlt).
    pose proof (Hin p Hp) as Hpp; pose proof (Hin q Hq) as Hqq.
    assert (Hw : x0 < x1) by lra.
    rewrite (sample_grid_explicit x0 x1 y0 y1 Hw).
    set (dx := 0.5 * (x1 - x0)).
    assert (Hdx : 0 < dx) by (unfold dx; lra).
    set (rows := Z.to_nat (Zceil ((y1 - y0) / dx + / 2))).
    assert (Hrows : (0 < rows)%nat).
    { pose proof (Zceil_bound ((y1 - y0) / dx + / 2)) as [_ Hhi].
      assert (Hq0 : 0 <= (y1 - y0) / dx)
        by (apply Rmult_le_pos; [lra | apply Rlt_le, Rinv_0_lt_compat, Hdx]).
      assert (Hz : (0 < Zceil ((y1 - y0) / dx + / 2))%Z)
        by (apply lt_IZR; lra).
      unfold rows; lia. }
    eexists; split; [reflexivity |].
    assert (Hfirst : forall xx,
               In xx [x0; x0 + dx; x1] ->
               In (xx, y0)
                  (flat_map
                     (fun xx => map (fun i => (xx, y0 + INR i * dx))
                                    (seq 0 rows))
                     [x0; x0 + dx; x1])).
    { intros xx Hxx; apply in_flat_map; exists xx; split; [exact Hxx |].
      apply in_map_iff; exists 0%nat; split.
      - simpl; f_equal; ring.
      - apply in_seq; lia. }
    split; [apply Hfirst; now left |].
    split; [apply Hfirst; right; right; now left |].
    apply Forall_forall; intros [x y] Hs.
    apply in_flat_map in Hs; destruct Hs as (xx & Hxx & Hs).
    apply in_map_iff in Hs; destruct Hs as (i & Heq & _).
    injection Heq as <- <-; simpl.
    pose proof (pos_INR i) as Hi.
    split; [| nra].
    simpl in Hxx; unfold dx in *.
    destruct Hxx as [<- | [<- | [<- | []]]]; lra.
  - intros Hsame.
    assert (He : x1 = x0) by (rewrite <- Hx0, <- Hx1; apply Hsame; assumption).
    rewrite He; unfold sample_grid, np_arange; cbv zeta.
    destruct (Req_dec_T (0.5 * (x0 - x0)) 0) as [_ | Hn];
      [reflexivity | exfalso; apply Hn; ring].
Qed.

Lemma grid_of_corners_witness :
  exists xPixMin xPixMax yPixMin yPixMax,
    _getTanPixelBounds (R * R) (fun p => p) [(0, 4); (2, 0); (2, 4); (0, 0)]
    = (Some xPixMin, Some xPixMax, Some yPixMin, Some yPixMax)
    /\ exists g,
        sample_grid xPixMin xPixMax yPixMin yPixMax = Ok g
        /\ In (xPixMin, yPixMin) g /\ In (xPixMax, yPixMin) g
        /\ Forall (fun s => xPixMin <= fst s <= xPixMax
                            /\ yPixMin <= snd s) g.
Proof.
  destruct (grid_of_corners (fun p : R * R => p)
              [(0, 4); (2, 0); (2, 4); (0, 0)])
    as (x0 & x1 & y0 & y1 & Hb & Hgrid & _); [discriminate |].
  exists x0, x1, y0, y1; split; [exact Hb |].
  apply Hgrid.
  exists (0, 4), (2, 0); simpl; repeat split; auto; lra.
Defined.
